(** * pr-fixer: the URL parser and the command-line orchestrator

    A shallow embedding of the TypeScript sources of pr-fixer
    ([parser.ts], [types.ts], [github.ts], [claude.ts], [index.ts]) and the
    properties of its specification that can be stated about them.

    JavaScript values are modelled as follows.
    - A string is a [string] that holds the UTF-8 encoding of the
      JavaScript string, which itself is a sequence of 16-bit code units.
      The pattern of [parsePRUrl] only tells apart the character [/], the
      decimal digits and the literal characters it names, all of them
      ASCII, and a character outside ASCII is some bytes that are none of
      these.  Where the program counts the elements of a string, in
      [body.slice(0, 100)], the code units are computed from the bytes
      ([utf16]) and the result is kept as code units.
    - A number is a [number]: an integer-valued double, an infinity or NaN.
      The only numbers the program builds are results of [parseInt] and
      lengths of arrays.
    - A function that may throw returns a [Result]; an [async] function that
      acts on the repository or calls an external tool is a function from the
      state of the world to a [Result] and a new state.                       *)

From Stdlib Require Import String Ascii ZArith List Lia Bool.
From Stdlib Require Import DecimalString DecimalPos.
Import ListNotations.
Open Scope Z_scope.
Open Scope list_scope.
Open Scope string_scope.

(* ================================================================== *)
(** * JavaScript values                                                 *)
(* ================================================================== *)

Module Js.

(** What a [throw] carries: an [Error] object with its [message], or any
    other value, kept as the string [String(value)] the handler of
    [index.ts] prints for it. *)
Inductive exn : Type :=
| JsError (message : string)
| JsValue (asString : string).

Inductive Result (A : Type) : Type :=
| Ok (a : A)
| Throw (e : exn).
Arguments Ok {A} a.
Arguments Throw {A} e.

(** Integer-valued doubles, the infinities and NaN.  [Fin z] is the double
    whose value is the integer [z]; the sign of zero is not tracked, as no
    comparison of the program tells the two zeros apart. *)
Inductive number : Type :=
| NaN
| Fin (z : Z)
| PosInf
| NegInf.

Definition isNaN (n : number) : bool :=
  match n with NaN => true | _ => false end.

(** [n <= k] for an integer constant [k]; every comparison with NaN is false. *)
Definition number_leb (n : number) (k : Z) : bool :=
  match n with
  | NaN => false
  | Fin z => (z <=? k)%Z
  | PosInf => false
  | NegInf => true
  end.

(** The largest integer below which every integer is a double:
    [Number.MAX_SAFE_INTEGER]. *)
Definition MAX_SAFE_INTEGER : Z := 2 ^ 53 - 1.

(** Rounding of a natural number to the nearest number with a 53-bit
    significand, ties to even. *)
Definition round53 (n : Z) : Z :=
  let e := Z.log2 n - 52 in
  if (e <=? 0)%Z then n
  else
    let q := Z.shiftr n e in
    let r := n - Z.shiftl q e in
    let half := Z.shiftl 1 (e - 1) in
    let q' :=
      if ((half <? r) || ((half =? r) && Z.odd q))%Z then q + 1 else q in
    Z.shiftl q' e.

(** The Number value for a mathematical integer: the nearest double, an
    infinity from [2^1024 - 2^970] on. *)
Definition toNumber (n : Z) : number :=
  let m := round53 (Z.abs n) in
  if (2 ^ 1024 <=? m)%Z then (if (n <? 0)%Z then NegInf else PosInf)
  else Fin (Z.sgn n * m).

Definition is_digit (c : ascii) : bool :=
  let n := N_of_ascii c in ((48 <=? n) && (n <=? 57))%N.

Definition digit_value (c : ascii) : Z := Z.of_N (N_of_ascii c) - 48.

(** The ASCII members of the white space and line terminators [parseInt]
    skips: TAB, LF, VT, FF, CR and the space. *)
Definition is_space (c : ascii) : bool :=
  let n := N_of_ascii c in (((9 <=? n) && (n <=? 13)) || (n =? 32))%N.

Fixpoint take_while (p : ascii -> bool) (s : string) : string :=
  match s with
  | "" => ""
  | String c r => if p c then String c (take_while p r) else ""
  end.

Fixpoint drop_while (p : ascii -> bool) (s : string) : string :=
  match s with
  | "" => ""
  | String c r => if p c then drop_while p r else s
  end.

(** The integer a string of decimal digits denotes, most significant digit
    first, continuing from [acc]. *)
Fixpoint digits_value (acc : Z) (s : string) : Z :=
  match s with
  | "" => acc
  | String c r => digits_value (acc * 10 + digit_value c) r
  end.

(** [parseInt(s, 10)]: leading white space is skipped, then an optional
    sign, then the longest run of decimal digits is read; no digit gives
    NaN.  What follows the digits is ignored.  The integer read is rounded
    to the nearest double; past twenty significant digits the language
    lets an implementation round a little differently, which no property
    below depends on. *)
Definition parseInt10 (s : string) : number :=
  let s1 := drop_while is_space s in
  let '(sign, s2) :=
    match s1 with
    | String "-"%char r => (-1, r)
    | String "+"%char r => (1, r)
    | _ => (1, s1)
    end in
  let z := take_while is_digit s2 in
  match z with
  | "" => NaN
  | _ => toNumber (sign * digits_value 0 z)
  end.

(** ** The code units of a string

    The elements of a JavaScript string are UTF-16 code units: one for a
    character of the basic plane, a pair of surrogates for any other.  A
    [string] holds the UTF-8 encoding; [utf16] reads the code units off
    it. *)

Definition is_continuation (c : ascii) : bool :=
  let b := N_of_ascii c in ((128 <=? b) && (b <? 192))%N.

(** The six bits a continuation byte carries. *)
Definition low6 (c : ascii) : N := (N_of_ascii c - 128)%N.

(** U+FFFD, which stands for bytes that are not UTF-8. *)
Definition REPLACEMENT : N := 65533%N.

Definition units_of_code_point (cp : N) : list N :=
  if (cp <? 65536)%N then [cp]
  else
    let v := (cp - 65536)%N in
    [(55296 + v / 1024)%N; (56320 + v mod 1024)%N].

(** A first byte below 128 is a character of its own; one from 192 opens a
    sequence of two bytes, from 224 of three, from 240 of four, the others
    being continuation bytes.  Only well-formed UTF-8 stands for a
    JavaScript string; a byte that opens or continues no such sequence is
    read as U+FFFD and the reading resumes after it. *)
Fixpoint utf16 (s : string) : list N :=
  match s with
  | "" => []
  | String c r =>
      let b := N_of_ascii c in
      if (b <? 128)%N then b :: utf16 r
      else
        match r with
        | String c1 r1 =>
            if negb (is_continuation c1) || (b <? 192)%N || (248 <=? b)%N
            then REPLACEMENT :: utf16 r
            else if (b <? 224)%N
            then ((b - 192) * 64 + low6 c1)%N :: utf16 r1
            else
              match r1 with
              | String c2 r2 =>
                  if negb (is_continuation c2) then REPLACEMENT :: utf16 r
                  else if (b <? 240)%N
                  then (((b - 224) * 64 + low6 c1) * 64 + low6 c2)%N
                       :: utf16 r2
                  else
                    match r2 with
                    | String c3 r3 =>
                        if negb (is_continuation c3)
                        then REPLACEMENT :: utf16 r
                        else
                          (units_of_code_point
                             ((((b - 240) * 64 + low6 c1) * 64 + low6 c2) * 64
                              + low6 c3)%N
                           ++ utf16 r3)%list
                    | "" => REPLACEMENT :: utf16 r
                    end
              | "" => REPLACEMENT :: utf16 r
              end
        | "" => [REPLACEMENT]
        end
  end.

(** [s.slice(from, to)] for indices that are not negative: the code units
    from index [from] up to, and without, index [to], as many of them as
    the string has.  A pair of surrogates may be cut in two. *)
Definition slice (s : list N) (from to : nat) : list N :=
  firstn (to - from) (skipn from s).

End Js.
Export Js.

(* ================================================================== *)
(** * Regular expressions of the shape [parsePRUrl] uses               *)
(* ================================================================== *)

Module Regex.

(** The pieces the pattern of [parsePRUrl] is made of, between [^] and [$]:
    literal characters, an optional literal ([s?], [(?:www\.)?], [\/?]) and
    a capturing group of one or more characters of a class ([([^/]+)],
    [(\d+)]). *)
Inductive item : Type :=
| Lit (s : string)
| Opt (s : string)
| Cap (cls : ascii -> bool).

Fixpoint strip_prefix (p s : string) : option string :=
  match p with
  | "" => Some s
  | String a p' =>
      match s with
      | String b s' => if Ascii.eqb a b then strip_prefix p' s' else None
      | "" => None
      end
  end.

(** [cls+] followed by [k], greedy with backtracking: the longest run of
    [cls] characters is tried first, then each shorter one down to a single
    character.  [taken] is what the group has consumed so far. *)
Fixpoint one_or_more (cls : ascii -> bool)
    (k : string -> string -> option (list string))
    (taken s : string) : option (list string) :=
  match s with
  | "" => None
  | String c rest =>
      if cls c then
        let taken' := taken ++ String c "" in
        match one_or_more cls k taken' rest with
        | Some caps => Some caps
        | None => k taken' rest
        end
      else None
  end.

(** A backtracking matcher: the captures of the first way the whole of [s]
    matches the items, an optional item being tried present before absent. *)
Fixpoint exec (p : list item) (s : string) : option (list string) :=
  match p with
  | [] => match s with "" => Some [] | _ => None end
  | Lit l :: p' =>
      match strip_prefix l s with
      | Some rest => exec p' rest
      | None => None
      end
  | Opt l :: p' =>
      match
        match strip_prefix l s with
        | Some rest => exec p' rest
        | None => None
        end
      with
      | Some caps => Some caps
      | None => exec p' s
      end
  | Cap cls :: p' =>
      one_or_more cls (fun g rest => option_map (cons g) (exec p' rest)) "" s
  end.

(** Where a run of [cls] characters has to stop: at the end of the string
    or before a character that is not in [cls]. *)
Definition stops (cls : ascii -> bool) (rest : string) : Prop :=
  match rest with
  | "" => True
  | String c _ => cls c = false
  end.

(** [s.match(p)] for an anchored pattern without the global flag: [null], or
    the array of the whole match followed by the captures. *)
Definition regex_match (p : list item) (s : string) : option (list string) :=
  option_map (cons s) (exec p s).

End Regex.

(* ================================================================== *)
(** * types.ts                                                          *)
(* ================================================================== *)

Record ParsedPRUrl : Type := {
  owner : string;
  repo : string;
  prNumber : number
}.

Record PRComment : Type := {
  id : number;
  body : string;
  path : string;
  line : option number;
  diffHunk : string;
  user : string;
  createdAt : string
}.

Record CommentProcessResult : Type := {
  commentId : number;
  fixed : bool;
  commitSha : option string;
  message : string
}.

(* ================================================================== *)
(** * parser.ts                                                         *)
(* ================================================================== *)

Module Parser.
Import Regex.

Definition not_slash (c : ascii) : bool := negb (Ascii.eqb c "/"%char).

(** [/^https?:\/\/(?:www\.)?github\.com\/([^/]+)\/([^/]+)\/pull\/(\d+)\/?$/] *)
Definition pattern : list item :=
  [ Lit "http"; Opt "s"; Lit "://"; Opt "www."; Lit "github.com/";
    Cap not_slash; Lit "/"; Cap not_slash; Lit "/pull/"; Cap is_digit;
    Opt "/" ].

Definition invalid_url_message (url : string) : string :=
  "Invalid GitHub PR URL: " ++ url
    ++ ". Expected format: https://github.com/owner/repo/pull/123".

Definition invalid_number_message (url : string) : string :=
  "Invalid PR number in URL: " ++ url.

Definition parsePRUrl (url : string) : Result ParsedPRUrl :=
  match regex_match pattern url with
  | None => Throw (JsError (invalid_url_message url))
  | Some m =>
      match m with
      | _ :: owner :: repo :: prNumberStr :: _ =>
          let prNumber := parseInt10 prNumberStr in
          if isNaN prNumber || number_leb prNumber 0
          then Throw (JsError (invalid_number_message url))
          else Ok {| owner := owner; repo := repo; prNumber := prNumber |}
      | _ =>
          (* a missing capture is [undefined], which [parseInt] reads as NaN *)
          Throw (JsError (invalid_number_message url))
      end
  end.

End Parser.
Export Parser.

(* ================================================================== *)
(** * The grammar of pull-request URLs, as the specification words it   *)
(* ================================================================== *)

Module Grammar.

Fixpoint all_chars (p : ascii -> bool) (s : string) : bool :=
  match s with
  | "" => true
  | String c r => p c && all_chars p r
  end.

(** A path segment: not empty, without [/]. *)
Definition segment (s : string) : Prop :=
  s <> "" /\ all_chars not_slash s = true.

(** [<digits>]: one decimal digit or more. *)
Definition digit_string (s : string) : Prop :=
  s <> "" /\ all_chars is_digit s = true.

(** [scheme://[www.]host/owner/repo/pull/<digits>[/]]: the scheme is that
    of the web, [http] or [https] in [pr_url] below, and the host is the
    hosting service, [github.com]. *)
Definition url_of_parts (scheme www o r d slash : string) : string :=
  scheme ++ "://" ++ www ++ "github.com/" ++ o ++ "/" ++ r ++ "/pull/"
    ++ d ++ slash.

(** [pr_url u o r d]: [u] follows the grammar with owner [o], repository [r]
    and the digits [d]. *)
Inductive pr_url : string -> string -> string -> string -> Prop :=
| pr_url_intro (scheme www o r d slash : string) :
    scheme = "http" \/ scheme = "https" ->
    www = "" \/ www = "www." ->
    slash = "" \/ slash = "/" ->
    segment o -> segment r -> digit_string d ->
    pr_url (url_of_parts scheme www o r d slash) o r d.

(** The pull-request number the digits denote. *)
Definition pr_number (d : string) : Z := digits_value 0 d.

(** A valid pull-request URL: the grammar, with a positive number. *)
Definition valid_pr_url (u : string) : Prop :=
  exists o r d, pr_url u o r d /\ 0 < pr_number d.

(** The two messages [parsePRUrl] throws for the URL [u]. *)
Definition invalid_url_error (u : string) (e : exn) : Prop :=
  e = JsError (invalid_url_message u) \/ e = JsError (invalid_number_message u).

(** The digit [0]. *)
Definition is_zero (c : ascii) : bool := Ascii.eqb c "0"%char.

(** The decimal numeral of an integer, without leading zeros. *)
Definition decimal (z : Z) : string := NilZero.string_of_int (Z.to_int z).

Definition canonical_url (o r : string) (n : string) : string :=
  "https://github.com/" ++ o ++ "/" ++ r ++ "/pull/" ++ n.

(** Modelled from the spec: [format], the URL of a parsed reference, which
    the sources do not define.  It is the form the error message of
    [parsePRUrl] gives as expected, [https://github.com/owner/repo/pull/123],
    the number written as JavaScript writes an integer up to
    [MAX_SAFE_INTEGER], in decimal. *)
Definition format (ref : ParsedPRUrl) : string :=
  canonical_url (owner ref) (repo ref)
    match prNumber ref with
    | Fin z => decimal z
    | NaN => "NaN"
    | PosInf => "Infinity"
    | NegInf => "-Infinity"
    end.

Fixpoint split_on (sep : ascii) (s : string) : list string :=
  match s with
  | "" => [""]
  | String c r =>
      if Ascii.eqb c sep then "" :: split_on sep r
      else
        match split_on sep r with
        | h :: t => String c h :: t
        | [] => [String c ""]
        end
  end.

(** Modelled from the spec: [normalizedForm], which the sources do not
    define.  The URL is cut at every [/]; scheme and host are replaced by
    [https://github.com], a trailing [/] is dropped and the number is
    rewritten without leading zeros.  A string with fewer pieces is left as
    it is. *)
Definition normalizedForm (u : string) : string :=
  match split_on "/" u with
  | _ :: _ :: _ :: o :: r :: _ :: d :: _ =>
      canonical_url o r (decimal (pr_number d))
  | _ => u
  end.

End Grammar.
Export Grammar.

(* ================================================================== *)
(** * github.ts and claude.ts                                           *)
(* ================================================================== *)

(** The three functions [index.ts] imports act on the repository and call
    external tools: each is a function of the state of the world, of any
    type [World].  Their bodies in the sources are placeholders that throw
    before doing anything. *)

Module GitHub.

Definition checkoutPRBranch {World : Type} (_prNumber : number)
    (_repoDir : string) (w : World) : Result unit * World :=
  (Throw (JsError "Not implemented"), w).

Definition fetchPRComments {World : Type} (_owner _repo : string)
    (_prNumber : number) (w : World) : Result (list PRComment) * World :=
  (Throw (JsError "Not implemented"), w).

End GitHub.

Module Claude.

Definition processCommentWithClaude {World : Type} (_comment : PRComment)
    (w : World) : Result CommentProcessResult * World :=
  (Throw (JsError "Not implemented"), w).

End Claude.

(* ================================================================== *)
(** * index.ts                                                          *)
(* ================================================================== *)

Module Cli.

(** The options the action receives; an absent [--dry-run] is [false]. *)
Record Options : Type := {
  dryRun : bool;
  directory : option string
}.

(** A template literal before its substitutions are turned into text: the
    literal text, a number, a string that may be [undefined], or a string
    given by its code units, as a slice is. *)
Inductive piece : Type :=
| Str (s : string)
| Num (n : number)
| StrOrUndefined (s : option string)
| Utf16 (units : list N).

(** What a run does that can be observed from outside, in order. *)
Inductive Event : Type :=
| ConsoleLog (template : list piece)
| ConsoleError (args : list string)
| CallCheckout (prNumber : number) (repoDir : string)
| CallFetch (owner repo : string) (prNumber : number)
| CallProcess (comment : PRComment)
| ProcessExit (code : Z).

Definition LF : string := String "010"%char "".

(** [error instanceof Error ? error.message : String(error)] *)
Definition error_text (e : exn) : string :=
  match e with
  | JsError m => m
  | JsValue s => s
  end.

Section Action.

Context {World : Type}.

(** The imports of [index.ts], whatever their implementation. *)
Variable checkoutPRBranch : number -> string -> World -> Result unit * World.
Variable fetchPRComments :
  string -> string -> number -> World -> Result (list PRComment) * World.
Variable processCommentWithClaude :
  PRComment -> World -> Result CommentProcessResult * World.

Record State : Type := {
  world : World;
  trace : list Event
}.

(** Computations that read and change the world, log events and may throw. *)
Definition M (A : Type) : Type := State -> Result A * State.

Definition ret {A : Type} (a : A) : M A := fun st => (Ok a, st).

Definition bind {A B : Type} (m : M A) (k : A -> M B) : M B :=
  fun st =>
    match m st with
    | (Ok a, st') => k a st'
    | (Throw e, st') => (Throw e, st')
    end.

Definition emit (e : Event) : M unit :=
  fun st => (Ok tt, {| world := world st; trace := (trace st ++ [e])%list |}).

(** A synchronous call that may throw and leaves the world alone. *)
Definition lift {A : Type} (r : Result A) : M A := fun st => (r, st).

(** An awaited call of an imported function, logged as [e]. *)
Definition call {A : Type} (e : Event) (f : World -> Result A * World) : M A :=
  fun st =>
    let '(r, w') := f (world st) in
    (r, {| world := w'; trace := (trace st ++ [e])%list |}).

Definition try_catch {A : Type} (m : M A) (h : exn -> M A) : M A :=
  fun st =>
    match m st with
    | (Ok a, st') => (Ok a, st')
    | (Throw e, st') => h e st'
    end.

Notation "x <- m ;; k" := (bind m (fun x => k))
  (at level 61, m at next level, right associativity).
Notation "m ;; k" := (bind m (fun _ => k))
  (at level 61, right associativity).

Definition console_log (template : list piece) : M unit :=
  emit (ConsoleLog template).

Fixpoint for_of {A : Type} (l : list A) (body : A -> M unit) : M unit :=
  match l with
  | [] => ret tt
  | x :: rest => body x ;; for_of rest body
  end.

(** The body of the loop over the comments.  The mark before [Fixed] is
    written as the source file holds it. *)
Definition process_one (options : Options) (comment : PRComment) : M unit :=
  console_log [Str (LF ++ "Processing comment by "); Str (user comment); Str ":"] ;;
  console_log [Str "  "; Utf16 (slice (utf16 (body comment)) 0 100);
               Str "..."] ;;
  if negb (dryRun options) then
    result <- call (CallProcess comment) (processCommentWithClaude comment) ;;
    if fixed result then
      console_log [Str "  âœ“ Fixed and committed: ";
                   StrOrUndefined (commitSha result)]
    else
      console_log [Str "  - No changes needed: "; Str (message result)]
  else ret tt.

(** [options.directory || process.cwd()]: an empty string is falsy. *)
Definition repo_dir (options : Options) (cwd : string) : string :=
  match directory options with
  | Some d => if String.eqb d "" then cwd else d
  | None => cwd
  end.

(** The [try] block of the action. *)
Definition action_body (prUrl : string) (options : Options) (cwd : string)
    : M unit :=
  let repoDir := repo_dir options cwd in
  console_log [Str "Processing PR: "; Str prUrl] ;;
  console_log [Str "Repository directory: "; Str repoDir] ;;
  ref <- lift (parsePRUrl prUrl) ;;
  let owner := owner ref in
  let repo := repo ref in
  let prNumber := prNumber ref in
  console_log [Str "Parsed: "; Str owner; Str "/"; Str repo; Str "#";
               Num prNumber] ;;
  (if negb (dryRun options) then
     call (CallCheckout prNumber repoDir) (checkoutPRBranch prNumber repoDir) ;;
     console_log [Str "Checked out PR branch"]
   else ret tt) ;;
  comments <- call (CallFetch owner repo prNumber)
                   (fetchPRComments owner repo prNumber) ;;
  console_log [Str "Found "; Num (Fin (Z.of_nat (length comments)));
               Str " review comments"] ;;
  for_of comments (process_one options) ;;
  console_log [Str (LF ++ "Done! Review the commits and push when ready.")].

(** The [catch] block: the message goes to the error stream and the process
    ends with code 1. *)
Definition on_error (error : exn) : M unit :=
  emit (ConsoleError ["Error:"; error_text error]) ;;
  emit (ProcessExit 1).

Definition action (prUrl : string) (options : Options) (cwd : string)
    : M unit :=
  try_catch (action_body prUrl options cwd) on_error.

(** A finished run: the world it leaves, what it did, and the exit code of
    the process, 0 when [process.exit] was not called. *)
Record Run : Type := {
  final : World;
  events : list Event;
  exitCode : Z
}.

(** The world in which the comments are fetched: the one the run starts in
    for a dry run, otherwise the one a successful checkout leaves. *)
Definition after_checkout (options : Options) (ref : ParsedPRUrl)
    (cwd : string) (w : World) : option World :=
  if dryRun options then Some w
  else
    match checkoutPRBranch (prNumber ref) (repo_dir options cwd) w with
    | (Ok _, w') => Some w'
    | (Throw _, _) => None
    end.

(** [respects Q R m]: whatever the state [m] starts in, it only adds events
    to the trace, each of them satisfies [Q], and the world it leaves is
    related by [R] to the one it found. *)
Definition respects (Q : Event -> Prop) (R : World -> World -> Prop)
    {A : Type} (m : M A) : Prop :=
  forall st,
    exists tr,
      trace (snd (m st)) = (trace st ++ tr)%list
      /\ Forall Q tr
      /\ R (world st) (world (snd (m st))).

(** The world after the agent has handled every comment of [cs] without
    throwing, if it does. *)
Fixpoint after_processing (cs : list PRComment) (w : World) : option World :=
  match cs with
  | [] => Some w
  | c :: rest =>
      match processCommentWithClaude c w with
      | (Ok _, w') => after_processing rest w'
      | (Throw _, _) => None
      end
  end.

Fixpoint exit_code (tr : list Event) : Z :=
  match tr with
  | [] => 0
  | ProcessExit c :: _ => c
  | _ :: rest => exit_code rest
  end.

Definition run (prUrl : string) (options : Options) (cwd : string)
    (w : World) : Run :=
  let st := snd (action prUrl options cwd {| world := w; trace := [] |}) in
  {| final := world st; events := trace st; exitCode := exit_code (trace st) |}.

End Action.

Definition is_exit (e : Event) : bool :=
  match e with ProcessExit _ => true | _ => false end.

Definition is_call_checkout (e : Event) : bool :=
  match e with CallCheckout _ _ => true | _ => false end.

Definition is_call_fetch (e : Event) : bool :=
  match e with CallFetch _ _ _ => true | _ => false end.

Definition is_call_process (e : Event) : bool :=
  match e with CallProcess _ => true | _ => false end.

(** What a run whose URL parses to [ref] has logged when it comes to fetch
    the comments. *)
Definition events_before_fetch (prUrl : string) (options : Options)
    (cwd : string) (ref : ParsedPRUrl) : list Event :=
  [ ConsoleLog [Str "Processing PR: "; Str prUrl];
    ConsoleLog [Str "Repository directory: "; Str (repo_dir options cwd)];
    ConsoleLog [Str "Parsed: "; Str (owner ref); Str "/"; Str (repo ref);
                Str "#"; Num (prNumber ref)] ]
  ++ (if dryRun options then []
      else [ CallCheckout (prNumber ref) (repo_dir options cwd);
             ConsoleLog [Str "Checked out PR branch"] ]).

(** The comments handed to the agent, in order. *)
Fixpoint processed (tr : list Event) : list PRComment :=
  match tr with
  | [] => []
  | CallProcess c :: rest => c :: processed rest
  | _ :: rest => processed rest
  end.

(** The two lines a run logs for a comment before anything is done with
    it: its author, and the first 100 code units of its body. *)
Definition comment_logs (c : PRComment) : list Event :=
  [ ConsoleLog [Str (LF ++ "Processing comment by "); Str (user c); Str ":"];
    ConsoleLog [Str "  "; Utf16 (slice (utf16 (body c)) 0 100); Str "..."] ].


(** The line that counts the comments fetched. *)
Definition found_log (cs : list PRComment) : Event :=
  ConsoleLog [Str "Found "; Num (Fin (Z.of_nat (length cs)));
              Str " review comments"].

(** The last line of a run that ends normally. *)
Definition done_log : Event :=
  ConsoleLog [Str (LF ++ "Done! Review the commits and push when ready.")].

Definition is_console_error (e : Event) : bool :=
  match e with ConsoleError _ => true | _ => false end.

(** An event of the [try] block that is not its last line. *)
Definition before_the_end (e : Event) : Prop :=
  e <> done_log /\ is_console_error e = false /\ is_exit e = false.

(** [throws_within Q m]: when [m] throws, it has only added events that
    satisfy [Q] to the trace. *)
Definition throws_within {World : Type} (Q : Event -> Prop) {A : Type}
    (m : M (World := World) A) : Prop :=
  forall st e st',
    m st = (Throw e, st') ->
    exists tr, trace st' = (trace st ++ tr)%list /\ Forall Q tr.

End Cli.
Export Cli.

(* ================================================================== *)
(** * The command line of index.ts                                      *)
(* ================================================================== *)

(** [program.parse()] hands [process.argv] to the commander library, which
    [index.ts] imports and the sources do not hold.  This module is a model
    of the library, written from its documentation and not translated from
    code of the repository.  The declarations are those of [index.ts],
    lines 10 to 16; the reading of the arguments is the library's for a
    program that declares options and one required argument and does not
    call [allowUnknownOption].  The model tells which way a command line
    ends, not the text the library prints for it; where the versions of
    the library differ, on more operands than the program declares, the
    outcome names the case and leaves it undecided. *)
Module Commander.

Record OptionDecl : Type := {
  short : option string;
  long : string;
  takesValue : bool
}.

(** [.version("1.0.0")], [.option("--dry-run", ...)] and
    [.option("-d, --directory <path>", ...)]. *)
Definition declared : list OptionDecl :=
  [ {| short := Some "-V"; long := "--version"; takesValue := false |};
    {| short := None; long := "--dry-run"; takesValue := false |};
    {| short := Some "-d"; long := "--directory"; takesValue := true |} ].

(** Model of the library: an option is found by its short or its long
    flag. *)
Definition names (o : OptionDecl) (flag : string) : bool :=
  String.eqb (long o) flag
  || match short o with Some f => String.eqb f flag | None => false end.

Definition findOption (flag : string) : option OptionDecl :=
  find (fun o => names o flag) declared.

(** Model of the library: the help flags, which the library adds to the
    declared options. *)
Definition is_help (flag : string) : bool :=
  String.eqb flag "-h" || String.eqb flag "--help".

(** Model of the library: what may be an option is a [-] and something
    more. *)
Definition maybeOption (arg : string) : bool :=
  (1 <? String.length arg)%nat && prefix "-" arg.

(** [--flag=value], cut at the first [=]. *)
Fixpoint cut_at_equals (s : string) : option (string * string) :=
  match s with
  | "" => None
  | String c r =>
      if Ascii.eqb c "="%char then Some ("", r)
      else
        match cut_at_equals r with
        | Some (a, b) => Some (String c a, b)
        | None => None
        end
  end.

(** The ways a command line ends: the action is called; there are more
    operands than the one declared, which the library up to version 12
    ignores, calling the action with the first, and from version 13
    refuses; the version or the help is shown; or the library refuses the
    command line, for an option that is not declared, for the missing
    [<pr_url>], or for [-d] without its [<path>], and the process ends with
    code 1 without calling the action. *)
Inductive Parsed : Type :=
| Invoke (prUrl : string) (options : Options)
| ExcessArguments (prUrl : string) (options : Options) (excess : list string)
| ShowVersion
| ShowHelp
| UnknownOption (flag : string)
| MissingArgument (name : string)
| OptionArgumentMissing (flags : string).

Definition apply_option (o : OptionDecl) (value : option string)
    (opts : Options) : Options :=
  if String.eqb (long o) "--dry-run"
  then {| dryRun := true; directory := directory opts |}
  else if String.eqb (long o) "--directory"
  then {| dryRun := dryRun opts; directory := value |}
  else opts.

(** Model of the library: what is left to decide once every argument has
    been read.  A help flag among the unknown arguments shows the help;
    otherwise the first unknown option is refused; otherwise the operands
    are counted against the one argument declared. *)
Definition conclude (opts : Options) (operands unknown : list string)
    : Parsed :=
  if existsb is_help unknown then ShowHelp
  else
    match unknown with
    | flag :: _ => UnknownOption flag
    | [] =>
        match operands with
        | [] => MissingArgument "pr_url"
        | [prUrl] => Invoke prUrl opts
        | prUrl :: excess => ExcessArguments prUrl opts excess
        end
    end.

(** Model of the library: the arguments are read from left to right.  A
    declared option is applied, [-d] taking the next argument whatever it
    is, or the rest of its own as in [-dpath] and [--directory=path];
    [--version] ends the reading at once.  After the first unknown option,
    what is not a declared option is kept with the unknown ones; [--] ends
    the options. *)
Fixpoint parseOptions (args : list string) (opts : Options)
    (operands unknown : list string) : Parsed :=
  let keep (arg : string)
      (go : Options -> list string -> list string -> Parsed) :=
    if maybeOption arg || negb (match unknown with [] => true | _ => false end)
    then go opts operands (unknown ++ [arg])%list
    else go opts (operands ++ [arg])%list unknown in
  match args with
  | [] => conclude opts operands unknown
  | arg :: rest =>
      if String.eqb arg "--" then
        match unknown with
        | [] => conclude opts (operands ++ rest)%list unknown
        | _ => conclude opts operands (unknown ++ arg :: rest)%list
        end
      else
        match (if maybeOption arg then findOption arg else None) with
        | Some o =>
            if String.eqb (long o) "--version" then ShowVersion
            else if takesValue o then
              match rest with
              | value :: rest' =>
                  parseOptions rest' (apply_option o (Some value) opts)
                    operands unknown
              | [] => OptionArgumentMissing "-d, --directory <path>"
              end
            else parseOptions rest (apply_option o None opts) operands unknown
        | None =>
            match
              (if (2 <? String.length arg)%nat && prefix "-" arg
                  && negb (prefix "--" arg)
               then findOption (substring 0 2 arg) else None)
            with
            | Some o =>
                if String.eqb (long o) "--version" then ShowVersion
                else
                  parseOptions rest
                    (apply_option o
                       (Some (substring 2 (String.length arg - 2) arg)) opts)
                    operands unknown
            | None =>
                match
                  (if prefix "--" arg then
                     match cut_at_equals arg with
                     | Some (flag, value) =>
                         match findOption flag with
                         | Some o =>
                             if takesValue o then Some (o, value) else None
                         | None => None
                         end
                     | None => None
                     end
                   else None)
                with
                | Some (o, value) =>
                    parseOptions rest (apply_option o (Some value) opts)
                      operands unknown
                | None => keep arg (parseOptions rest)
                end
            end
        end
  end.

(** Model of the library: [program.parse()] on the arguments after the
    name of the script. *)
Definition parseArgv (args : list string) : Parsed :=
  parseOptions args {| dryRun := false; directory := None |} [] [].

End Commander.

(* ================================================================== *)
(** * A repository and implementations of the imports to run the CLI on  *)
(* ================================================================== *)

Module Demo.

(** The part of the world the properties talk about: the head commit of
    the working directory, the paths with uncommitted changes and the
    commits the remote has. *)
Record Repo : Type := {
  head : string;
  dirty : list string;
  remote : list string
}.

Definition clean : Repo :=
  {| head := "c0"; dirty := []; remote := ["c0"] |}.

Definition dirty_repo : Repo :=
  {| head := "c0"; dirty := ["src/index.ts"]; remote := ["c0"] |}.

Definition comment (n : Z) (who text : string) : PRComment :=
  {| id := Fin n; body := text; path := "src/a.ts";
     line := Some (Fin 1); diffHunk := ""; user := who;
     createdAt := "2024-01-23T00:00:00Z" |}.

Definition first_comment : PRComment := comment 1 "alice" "rename this".
Definition second_comment : PRComment := comment 2 "bob" "handle null".

(** A checkout that succeeds and moves the head to the branch of the PR. *)
Definition checkout (_ : number) (_ : string) (w : Repo)
    : Result unit * Repo :=
  (Ok tt, {| head := "pr"; dirty := dirty w; remote := remote w |}).

(** A checkout that refuses to run over uncommitted changes and names the
    first paths that have some. *)
Definition guarded_checkout (n : number) (dir : string) (w : Repo)
    : Result unit * Repo :=
  match dirty w with
  | [] => checkout n dir w
  | paths =>
      (Throw (JsError ("Uncommitted changes found: "
                         ++ String.concat ", " (firstn 3 paths))), w)
  end.

(** A fetch that finds two comments and leaves the repository alone. *)
Definition fetch (_ _ : string) (_ : number) (w : Repo)
    : Result (list PRComment) * Repo :=
  (Ok [first_comment; second_comment], w).

(** A fetch that fails for want of a login, throwing a value that is not
    an [Error]. *)
Definition failing_fetch (_ _ : string) (_ : number) (w : Repo)
    : Result (list PRComment) * Repo :=
  (Throw (JsValue "gh: not logged in"), w).

(** An agent that commits a fix for every comment. *)
Definition agent (c : PRComment) (w : Repo)
    : Result CommentProcessResult * Repo :=
  (Ok {| commentId := id c; fixed := true; commitSha := Some "c1";
         message := "fixed" |},
   {| head := "c1"; dirty := dirty w; remote := remote w |}).


(** An agent that fails on the first comment and commits for the others. *)
Definition failing_agent (c : PRComment) (w : Repo)
    : Result CommentProcessResult * Repo :=
  match id c with
  | Fin 1 => (Throw (JsError "agent failed"), w)
  | _ => agent c w
  end.

Definition options (dry : bool) : Options :=
  {| dryRun := dry; directory := None |}.

Definition url : string := "https://github.com/owner/repo/pull/12".

(** The test pull request of the requirements, written the long way. *)
Definition pytorch_url : string :=
  "http://www.github.com/pytorch/pytorch/pull/172511/".

(** The malformed URL of the specification's scenario. *)
Definition other_host_url : string := "https://example.com/owner/repo/pull/12".

(** A URL whose number is the first integer that is not a double. *)
Definition unsafe_url : string :=
  "https://github.com/o/r/pull/9007199254740993".

(** The URL [url] written the long way, its number with leading zeros. *)
Definition long_url : string := "http://www.github.com/owner/repo/pull/0012/".

Fixpoint zeros (n : nat) : string :=
  match n with
  | O => ""
  | S k => String "0" (zeros k)
  end.

Fixpoint copies (n : nat) (s : string) : string :=
  match n with
  | O => ""
  | S k => s ++ copies k s
  end.

(** A body of 120 accented letters, each of two bytes and one code unit. *)
Definition accented_body : string := copies 120 "é".

(** A body whose hundredth code unit is the first of a pair of surrogates. *)
Definition astral_body : string := copies 99 "a" ++ "😀" ++ "b".

(** A URL whose number, 1 followed by 309 zeros, is beyond every double. *)
Definition huge_digits : string := String "1" (zeros 309).

Definition huge_url : string := url_of_parts "https" "" "o" "r" huge_digits "".

End Demo.

(* ================================================================== *)
(** * Proofs                                                            *)
(* ================================================================== *)

(* ================================================================== *)
(** * Strings                                                           *)
(* ================================================================== *)

Section Strings.

Lemma append_empty_r (s : string) : s ++ "" = s.
Proof. induction s as [|c s IH]; simpl; [reflexivity | now rewrite IH]. Qed.

Lemma append_assoc (a b c : string) : (a ++ b) ++ c = a ++ b ++ c.
Proof. induction a as [|x a IH]; simpl; [reflexivity | now rewrite IH]. Qed.

Lemma take_while_all (p : ascii -> bool) (s : string) :
  all_chars p s = true -> take_while p s = s.
Proof.
  induction s as [|c s IH]; simpl; [reflexivity|].
  intros H. apply andb_true_iff in H as [Hc Hs].
  rewrite Hc. now rewrite IH.
Qed.

End Strings.

(* ================================================================== *)
(** * The matcher                                                        *)
(* ================================================================== *)

Section Matcher.
Import Regex.

Lemma strip_prefix_app (p s : string) : strip_prefix p (p ++ s) = Some s.
Proof.
  induction p as [|a p IH]; simpl; [reflexivity|].
  now rewrite Ascii.eqb_refl.
Qed.

Lemma strip_prefix_inv (p s rest : string) :
  strip_prefix p s = Some rest -> s = p ++ rest.
Proof.
  revert s. induction p as [|a p IH]; simpl; intros s H.
  - congruence.
  - destruct s as [|b s]; [discriminate|].
    destruct (Ascii.eqb_spec a b) as [->|_]; [|discriminate].
    now rewrite (IH _ H).
Qed.

(** What a successful [one_or_more] consumed. *)
Lemma one_or_more_inv cls k : forall s taken caps,
  one_or_more cls k taken s = Some caps ->
  exists g rest,
    g <> "" /\ all_chars cls g = true /\ s = g ++ rest
    /\ k (taken ++ g) rest = Some caps.
Proof.
  induction s as [|c s IH]; simpl; intros taken caps H; [discriminate|].
  destruct (cls c) eqn:Hc; [|discriminate].
  destruct (one_or_more cls k (taken ++ String c "") s) eqn:Hrec.
  - injection H as <-.
    destruct (IH _ _ Hrec) as (g & rest & Hg & Hall & -> & Hk).
    exists (String c g), rest. repeat split.
    + discriminate.
    + simpl. now rewrite Hc.
    + now rewrite append_assoc in Hk.
  - exists (String c ""), s. repeat split.
    + discriminate.
    + simpl. now rewrite Hc.
    + exact H.
Qed.

Lemma one_or_more_stops cls k taken rest :
  stops cls rest -> one_or_more cls k taken rest = None.
Proof. destruct rest as [|c r]; simpl; [reflexivity | now intros ->]. Qed.

(** The longest run is taken when the rest matches after it. *)
Lemma one_or_more_greedy cls k : forall g taken rest caps,
  g <> "" -> all_chars cls g = true -> stops cls rest ->
  k (taken ++ g) rest = Some caps ->
  one_or_more cls k taken (g ++ rest) = Some caps.
Proof.
  induction g as [|c g IH]; intros taken rest caps Hne Hall Hstop Hk;
    [congruence|].
  simpl in Hall. apply andb_true_iff in Hall as [Hc Hall].
  simpl. rewrite Hc.
  destruct g as [|c' g'].
  - simpl. rewrite (one_or_more_stops _ _ _ _ Hstop). exact Hk.
  - rewrite (IH (taken ++ String c "") rest caps); try easy.
    now rewrite append_assoc.
Qed.

Lemma exec_nil_inv s caps : exec [] s = Some caps -> s = "" /\ caps = [].
Proof. destruct s; simpl; [intros [= <-]; auto | discriminate]. Qed.

Lemma exec_Lit_inv l p s caps :
  exec (Lit l :: p) s = Some caps ->
  exists rest, s = l ++ rest /\ exec p rest = Some caps.
Proof.
  simpl. destruct (strip_prefix l s) as [rest|] eqn:E; [|discriminate].
  intros H. exists rest. split; [now apply strip_prefix_inv | exact H].
Qed.

Lemma exec_Opt_inv l p s caps :
  exec (Opt l :: p) s = Some caps ->
  (exists rest, s = l ++ rest /\ exec p rest = Some caps)
  \/ exec p s = Some caps.
Proof.
  simpl. destruct (strip_prefix l s) as [rest|] eqn:E.
  - destruct (exec p rest) as [c|] eqn:E'.
    + intros [= <-]. left. exists rest. split; [now apply strip_prefix_inv | exact E'].
    + now right.
  - now right.
Qed.

Lemma exec_Cap_inv cls p s caps :
  exec (Cap cls :: p) s = Some caps ->
  exists g rest caps',
    g <> "" /\ all_chars cls g = true /\ s = g ++ rest
    /\ exec p rest = Some caps' /\ caps = g :: caps'.
Proof.
  simpl. intros H.
  destruct (one_or_more_inv _ _ _ _ _ H) as (g & rest & Hg & Hall & -> & Hk).
  simpl in Hk. destruct (exec p rest) as [caps'|] eqn:E; [|discriminate].
  injection Hk as <-. now exists g, rest, caps'.
Qed.

Lemma exec_Lit_app l p s : exec (Lit l :: p) (l ++ s) = exec p s.
Proof. simpl. now rewrite strip_prefix_app. Qed.

Lemma exec_Opt_present l p s caps :
  exec p s = Some caps -> exec (Opt l :: p) (l ++ s) = Some caps.
Proof. intros H. simpl. now rewrite strip_prefix_app, H. Qed.

Lemma exec_Opt_absent l p s :
  strip_prefix l s = None -> exec (Opt l :: p) s = exec p s.
Proof. intros H. simpl. now rewrite H. Qed.

Lemma exec_Cap_greedy cls p g rest caps :
  g <> "" -> all_chars cls g = true -> stops cls rest ->
  exec p rest = Some caps ->
  exec (Cap cls :: p) (g ++ rest) = Some (g :: caps).
Proof.
  intros Hg Hall Hstop H. simpl.
  apply one_or_more_greedy; try assumption.
  simpl. now rewrite H.
Qed.

End Matcher.

(* ================================================================== *)
(** * The pattern of [parsePRUrl] and the grammar                       *)
(* ================================================================== *)

Section Pattern.
Import Regex.

Lemma digit_not_slash (c : ascii) : is_digit c = true -> not_slash c = true.
Proof.
  destruct c as [[] [] [] [] [] [] [] []]; try discriminate; reflexivity.
Qed.

(** Every match of the pattern is a URL of the grammar, captures and all. *)
Lemma exec_pattern_sound (u : string) (caps : list string) :
  exec pattern u = Some caps ->
  exists o r d, pr_url u o r d /\ caps = [o; r; d].
Proof.
  unfold pattern. intros H.
  apply exec_Lit_inv in H as (s1 & -> & H).
  apply exec_Opt_inv in H.
  assert (exists scheme s2, (scheme = "http" \/ scheme = "https")
            /\ "http" ++ s1 = scheme ++ s2
            /\ exec [Lit "://"; Opt "www."; Lit "github.com/"; Cap not_slash;
                     Lit "/"; Cap not_slash; Lit "/pull/"; Cap is_digit;
                     Opt "/"] s2 = Some caps)
    as (scheme & s2 & Hscheme & -> & H').
  { destruct H as [(s2 & -> & H) | H].
    - exists "https", s2. auto.
    - exists "http", s1. auto. }
  clear H. rename H' into H.
  apply exec_Lit_inv in H as (s3 & -> & H).
  apply exec_Opt_inv in H.
  assert (exists www s4, (www = "" \/ www = "www.")
            /\ s3 = www ++ s4
            /\ exec [Lit "github.com/"; Cap not_slash; Lit "/"; Cap not_slash;
                     Lit "/pull/"; Cap is_digit; Opt "/"] s4 = Some caps)
    as (www & s4 & Hwww & -> & H').
  { destruct H as [(s4 & -> & H) | H].
    - exists "www.", s4. auto.
    - exists "", s3. auto. }
  clear H. rename H' into H.
  apply exec_Lit_inv in H as (s5 & -> & H).
  apply exec_Cap_inv in H as (o & s6 & c1 & Ho & Hoall & -> & H & ->).
  apply exec_Lit_inv in H as (s7 & -> & H).
  apply exec_Cap_inv in H as (r & s8 & c2 & Hr & Hrall & -> & H & ->).
  apply exec_Lit_inv in H as (s9 & -> & H).
  apply exec_Cap_inv in H as (d & s10 & c3 & Hd & Hdall & -> & H & ->).
  apply exec_Opt_inv in H.
  assert (exists slash, (slash = "" \/ slash = "/") /\ s10 = slash /\ c3 = [])
    as (slash & Hslash & -> & ->).
  { destruct H as [(s11 & -> & H) | H];
      apply exec_nil_inv in H as [-> ->].
    - exists "/". auto.
    - exists "". auto. }
  exists o, r, d. split; [|reflexivity].
  change (pr_url (url_of_parts scheme www o r d slash) o r d).
  now constructor.
Qed.

(** Every URL of the grammar matches, with its parts as captures. *)
Lemma exec_pattern_complete (u o r d : string) :
  pr_url u o r d -> exec pattern u = Some [o; r; d].
Proof.
  intros [scheme www o' r' d' slash Hscheme Hwww Hslash [Ho Hoall] [Hr Hrall]
            [Hd Hdall]].
  assert (Htail : exec [Cap not_slash; Lit "/"; Cap not_slash; Lit "/pull/";
                        Cap is_digit; Opt "/"]
                    (o' ++ "/" ++ r' ++ "/pull/" ++ d' ++ slash)
                  = Some [o'; r'; d']).
  { apply exec_Cap_greedy; [assumption | assumption | reflexivity |].
    rewrite exec_Lit_app.
    apply exec_Cap_greedy; [assumption | assumption | reflexivity |].
    rewrite exec_Lit_app.
    apply exec_Cap_greedy; [assumption | assumption | |].
    - destruct Hslash as [-> | ->]; reflexivity.
    - destruct Hslash as [-> | ->]; reflexivity. }
  assert (Hhost : exec [Opt "www."; Lit "github.com/"; Cap not_slash; Lit "/";
                        Cap not_slash; Lit "/pull/"; Cap is_digit; Opt "/"]
                    (www ++ "github.com/" ++ o' ++ "/" ++ r' ++ "/pull/"
                       ++ d' ++ slash)
                  = Some [o'; r'; d']).
  { destruct Hwww as [-> | ->].
    - rewrite exec_Opt_absent by reflexivity.
      change ("" ++ ?x) with x. now rewrite exec_Lit_app.
    - apply exec_Opt_present. now rewrite exec_Lit_app. }
  unfold url_of_parts, pattern.
  destruct Hscheme as [-> | ->].
  - rewrite exec_Lit_app.
    rewrite exec_Opt_absent by reflexivity.
    now rewrite exec_Lit_app.
  - change ("https" ++ ?x) with ("http" ++ "s" ++ x).
    rewrite exec_Lit_app.
    apply exec_Opt_present. now rewrite exec_Lit_app.
Qed.

Lemma exec_pattern_iff (u o r d : string) :
  exec pattern u = Some [o; r; d] <-> pr_url u o r d.
Proof.
  split.
  - intros H. destruct (exec_pattern_sound _ _ H) as (o' & r' & d' & Hu & E).
    now injection E as -> -> ->.
  - apply exec_pattern_complete.
Qed.

(** A URL has one reading at most. *)
Lemma pr_url_unique (u o r d o' r' d' : string) :
  pr_url u o r d -> pr_url u o' r' d' -> o = o' /\ r = r' /\ d = d'.
Proof.
  intros H H'. apply exec_pattern_complete in H, H'.
  rewrite H in H'. now injection H' as -> -> ->.
Qed.

End Pattern.

(* ================================================================== *)
(** * Numbers                                                           *)
(* ================================================================== *)

Section Numbers.

Lemma digit_value_range (c : ascii) :
  is_digit c = true -> 0 <= digit_value c <= 9.
Proof.
  unfold is_digit, digit_value. intros H.
  apply andb_true_iff in H as [H1 H2].
  apply N.leb_le in H1, H2. lia.
Qed.

Lemma digits_value_ge (s : string) : forall acc,
  all_chars is_digit s = true -> 0 <= acc -> acc <= digits_value acc s.
Proof.
  induction s as [|c s IH]; simpl; intros acc H Hacc; [lia|].
  apply andb_true_iff in H as [Hc Hs].
  pose proof (digit_value_range c Hc).
  specialize (IH (acc * 10 + digit_value c) Hs). lia.
Qed.

Lemma pr_number_nonneg (d : string) : digit_string d -> 0 <= pr_number d.
Proof. intros [_ H]. now apply digits_value_ge. Qed.

(** On a string of digits [parseInt] reads all of it. *)
Lemma parseInt10_digits (d : string) :
  digit_string d -> parseInt10 d = toNumber (pr_number d).
Proof.
  intros [Hne Hall]. destruct d as [|c r]; [congruence|].
  simpl in Hall. apply andb_true_iff in Hall as [Hc Hr].
  unfold parseInt10, pr_number.
  destruct c as [[] [] [] [] [] [] [] []]; try discriminate Hc;
    cbn [drop_while is_space N_of_ascii N_of_digits]; simpl;
    rewrite (take_while_all _ _ Hr);
    match goal with |- toNumber ?a = toNumber ?b => replace a with b; [reflexivity|] end;
    match goal with |- _ = match ?x with _ => _ end => destruct x; reflexivity end.
Qed.

Lemma round53_pos (n : Z) : 0 < n -> 0 < round53 n.
Proof.
  intros Hn. unfold round53.
  destruct (Z.leb_spec (Z.log2 n - 52) 0) as [He | He]; [assumption|].
  set (e := Z.log2 n - 52) in *.
  assert (Hq : 0 < Z.shiftr n e).
  { rewrite Z.shiftr_div_pow2 by lia.
    apply Z.div_str_pos. split; [apply Z.pow_pos_nonneg; lia|].
    transitivity (2 ^ Z.log2 n).
    - apply Z.pow_le_mono_r; lia.
    - apply Z.log2_spec. assumption. }
  rewrite Z.shiftl_mul_pow2 by lia.
  apply Z.mul_pos_pos; [|apply Z.pow_pos_nonneg; lia].
  destruct (_ || _); lia.
Qed.

(** A positive integer is read as a number the parser accepts. *)
Lemma toNumber_pos (n : Z) :
  0 < n -> isNaN (toNumber n) || number_leb (toNumber n) 0 = false.
Proof.
  intros Hn. unfold toNumber.
  rewrite (Z.abs_eq n) by lia.
  pose proof (round53_pos n Hn) as Hm.
  destruct (2 ^ 1024 <=? round53 n)%Z.
  - destruct (Z.ltb_spec n 0); [lia | reflexivity].
  - rewrite (Z.sgn_pos n) by lia. rewrite Z.mul_1_l.
    cbn [isNaN number_leb orb]. apply Z.leb_gt. lia.
Qed.

Lemma toNumber_zero : isNaN (toNumber 0) || number_leb (toNumber 0) 0 = true.
Proof. reflexivity. Qed.

(** Up to [MAX_SAFE_INTEGER] the number is the integer itself. *)
Lemma toNumber_safe (n : Z) :
  0 <= n <= MAX_SAFE_INTEGER -> toNumber n = Fin n.
Proof.
  unfold MAX_SAFE_INTEGER. intros [H0 Hmax].
  assert (Hr : round53 n = n).
  { unfold round53.
    destruct (Z.leb_spec (Z.log2 n - 52) 0) as [He | He]; [reflexivity|].
    exfalso.
    assert (Z.log2 n < 53); [|lia].
    destruct (Z.eq_dec n 0) as [-> | Hn]; [reflexivity|].
    apply Z.log2_lt_pow2; lia. }
  unfold toNumber. rewrite (Z.abs_eq n) by lia. rewrite Hr.
  destruct (Z.leb_spec (2 ^ 1024) n) as [Hbig | _].
  - exfalso. assert (2 ^ 53 < 2 ^ 1024) by (apply Z.pow_lt_mono_r; lia). lia.
  - f_equal. destruct (Z.eq_dec n 0) as [-> | Hn]; [reflexivity|].
    rewrite Z.sgn_pos by lia. lia.
Qed.

End Numbers.

(* ================================================================== *)
(** * [parsePRUrl]                                                      *)
(* ================================================================== *)

Section ParsePRUrl.
Import Regex.

(** What [parsePRUrl] returns on a URL of the grammar. *)
Lemma parsePRUrl_pr_url (u o r d : string) :
  pr_url u o r d ->
  parsePRUrl u =
    if (0 <? pr_number d)%Z
    then Ok {| owner := o; repo := r; prNumber := toNumber (pr_number d) |}
    else Throw (JsError (invalid_number_message u)).
Proof.
  intros H. assert (Hd : digit_string d) by (now destruct H).
  unfold parsePRUrl, regex_match.
  rewrite (exec_pattern_complete _ _ _ _ H). cbn [option_map].
  rewrite (parseInt10_digits _ Hd).
  pose proof (pr_number_nonneg _ Hd) as Hge.
  destruct (Z.ltb_spec 0 (pr_number d)) as [Hpos | Hzero].
  - now rewrite toNumber_pos.
  - replace (pr_number d) with 0 by lia. now rewrite toNumber_zero.
Qed.

(** What it returns on any other string. *)
Lemma parsePRUrl_no_match (u : string) :
  (forall o r d, ~ pr_url u o r d) ->
  parsePRUrl u = Throw (JsError (invalid_url_message u)).
Proof.
  intros H. unfold parsePRUrl, regex_match.
  destruct (exec pattern u) as [caps|] eqn:E; [|reflexivity].
  destruct (exec_pattern_sound _ _ E) as (o & r & d & Hu & _).
  now destruct (H o r d).
Qed.

Lemma pr_url_dec (u : string) :
  (exists o r d, pr_url u o r d) \/ (forall o r d, ~ pr_url u o r d).
Proof.
  destruct (exec pattern u) as [caps|] eqn:E.
  - left. destruct (exec_pattern_sound _ _ E) as (o & r & d & Hu & _). eauto.
  - right. intros o r d H. apply exec_pattern_complete in H. congruence.
Qed.

Lemma invalid_pr_url_throws (u : string) :
  ~ valid_pr_url u -> exists e, parsePRUrl u = Throw e /\ invalid_url_error u e.
Proof.
  intros Hinv. destruct (pr_url_dec u) as [(o & r & d & H) | H].
  - rewrite (parsePRUrl_pr_url _ _ _ _ H).
    destruct (Z.ltb_spec 0 (pr_number d)) as [Hpos | _].
    + destruct Hinv. now exists o, r, d.
    + eexists. split; [reflexivity | now right].
  - rewrite (parsePRUrl_no_match _ H). eexists. split; [reflexivity | now left].
Qed.

End ParsePRUrl.

(* ================================================================== *)
(** * The normal form of a URL                                          *)
(* ================================================================== *)

Section NormalForm.

Lemma split_on_last (a : string) :
  all_chars not_slash a = true -> split_on "/" a = [a].
Proof.
  induction a as [|c a IH]; simpl; [reflexivity|].
  intros H. apply andb_true_iff in H as [Hc Ha].
  unfold not_slash in Hc. apply negb_true_iff in Hc. rewrite Hc.
  now rewrite (IH Ha).
Qed.

Lemma split_on_segment (a rest : string) :
  all_chars not_slash a = true ->
  split_on "/" (a ++ String "/" rest) = a :: split_on "/" rest.
Proof.
  induction a as [|c a IH]; simpl; [reflexivity|].
  intros H. apply andb_true_iff in H as [Hc Ha].
  unfold not_slash in Hc. apply negb_true_iff in Hc. rewrite Hc.
  now rewrite (IH Ha).
Qed.

Lemma all_digits_not_slash (d : string) :
  all_chars is_digit d = true -> all_chars not_slash d = true.
Proof.
  induction d as [|c d IH]; simpl; [reflexivity|].
  intros H. apply andb_true_iff in H as [Hc Hd].
  now rewrite (digit_not_slash _ Hc), (IH Hd).
Qed.

Lemma split_on_pr_url (scheme www o r d slash : string) :
  scheme = "http" \/ scheme = "https" ->
  www = "" \/ www = "www." ->
  slash = "" \/ slash = "/" ->
  segment o -> segment r -> digit_string d ->
  exists x y z tail,
    split_on "/" (url_of_parts scheme www o r d slash)
    = x :: y :: z :: o :: r :: "pull" :: d :: tail.
Proof.
  intros Hscheme Hwww Hslash [_ Ho] [_ Hr] [_ Hd].
  apply all_digits_not_slash in Hd.
  assert (Htail : exists tail,
            split_on "/" (o ++ "/" ++ r ++ "/pull/" ++ d ++ slash)
            = o :: r :: "pull" :: d :: tail).
  { change (o ++ "/" ++ r ++ "/pull/" ++ d ++ slash)
      with (o ++ String "/" (r ++ String "/" ("pull" ++ String "/" (d ++ slash)))).
    rewrite (split_on_segment o) by assumption.
    rewrite (split_on_segment r) by assumption.
    rewrite (split_on_segment "pull") by reflexivity.
    destruct Hslash as [-> | ->].
    - exists []. rewrite append_empty_r. now rewrite split_on_last.
    - exists [""]. now rewrite split_on_segment. }
  destruct Htail as [tail Htail].
  unfold url_of_parts.
  destruct Hscheme as [-> | ->], Hwww as [-> | ->];
    match goal with
    | |- context [split_on _ (?s ++ "://" ++ ?w ++ "github.com/" ++ ?t)] =>
        change (s ++ "://" ++ w ++ "github.com/" ++ t)
          with ((s ++ ":") ++ String "/" ("" ++ String "/"
                  ((w ++ "github.com") ++ String "/" t)));
        rewrite (split_on_segment (s ++ ":")) by reflexivity;
        rewrite (split_on_segment "") by reflexivity;
        rewrite (split_on_segment (w ++ "github.com")) by reflexivity;
        rewrite Htail; eauto
    end.
Qed.

(** The normal form of a URL of the grammar. *)
Lemma normalizedForm_pr_url (u o r d : string) :
  pr_url u o r d ->
  normalizedForm u = canonical_url o r (decimal (pr_number d)).
Proof.
  intros [scheme www o' r' d' slash Hscheme Hwww Hslash Ho Hr Hd].
  unfold normalizedForm.
  destruct (split_on_pr_url scheme www o' r' d' slash)
    as (x & y & z & tail & ->); auto.
Qed.

End NormalForm.

(** ** [parsePRUrl] on the URLs of its documentation *)

Example parse_basic :
  parsePRUrl "https://github.com/pytorch/pytorch/pull/172511"
  = Ok {| owner := "pytorch"; repo := "pytorch"; prNumber := Fin 172511 |}.
Proof. vm_compute. reflexivity. Qed.

Example parse_www_and_trailing_slash :
  parsePRUrl "http://www.github.com/o/r/pull/007/"
  = Ok {| owner := "o"; repo := "r"; prNumber := Fin 7 |}.
Proof. vm_compute. reflexivity. Qed.

Example parse_other_host :
  parsePRUrl Demo.other_host_url
  = Throw (JsError (invalid_url_message Demo.other_host_url)).
Proof. vm_compute. reflexivity. Qed.

Example parse_zero :
  parsePRUrl "https://github.com/o/r/pull/0"
  = Throw (JsError (invalid_number_message "https://github.com/o/r/pull/0")).
Proof. vm_compute. reflexivity. Qed.

Example parse_files_tab :
  parsePRUrl "https://github.com/o/r/pull/12/files"
  = Throw (JsError
             (invalid_url_message "https://github.com/o/r/pull/12/files")).
Proof. vm_compute. reflexivity. Qed.

Example toNumber_ties_to_even :
  toNumber 9007199254740993 = Fin 9007199254740992
  /\ toNumber 9007199254740995 = Fin 9007199254740996
  /\ toNumber (2 ^ 1024 - 2 ^ 970) = PosInf
  /\ toNumber (2 ^ 1024 - 2 ^ 970 - 1) = Fin ((2 ^ 53 - 1) * 2 ^ 971).
Proof. repeat split; vm_compute; reflexivity. Qed.

(** ** The code units of a string and [slice] *)

Lemma utf16_ascii (s : string) :
  all_chars (fun c => (N_of_ascii c <? 128)%N) s = true ->
  utf16 s = map N_of_ascii (list_ascii_of_string s).
Proof.
  induction s as [|c s IH]; intros H; [reflexivity|].
  cbn [all_chars] in H. apply andb_true_iff in H as [Hc Hs].
  cbn [utf16 list_ascii_of_string map]. rewrite Hc. now rewrite IH.
Qed.

Lemma slice_from_start (s : list N) (n : nat) :
  slice s 0 n = firstn n s /\ (List.length (slice s 0 n) <= n)%nat.
Proof.
  unfold slice. rewrite Nat.sub_0_r. cbn [skipn].
  split; [reflexivity | apply firstn_le_length].
Qed.

Example utf16_of_characters :
  utf16 "a" = [97%N] /\ utf16 "é" = [233%N] /\ utf16 "✓" = [10003%N]
  /\ utf16 "😀" = [55357%N; 56832%N].
Proof. repeat split. Qed.

Example slice_counts_code_units :
  String.length Demo.accented_body = 240%nat
  /\ slice (utf16 Demo.accented_body) 0 100 = repeat 233%N 100.
Proof. split; vm_compute; reflexivity. Qed.

Example slice_cuts_a_pair_of_surrogates :
  slice (utf16 Demo.astral_body) 0 100 = (repeat 97%N 99 ++ [55357%N])%list.
Proof. vm_compute. reflexivity. Qed.

(* ================================================================== *)
(** * The URL parser: the claims                                        *)
(* ================================================================== *)

(** C2.  [parsePRUrl] is a total function of the string alone.  It returns a
    reference exactly when the string follows the grammar
    [scheme://[www.]host/owner/repo/pull/<digits>[/]], with [http] or
    [https] for scheme and [github.com] for host, and its number is
    positive; on every other string it throws an error that says the URL is
    invalid: the one for a string that does not follow the grammar, or the
    one for a number that is not positive in a string that does. *)
Theorem parsePRUrl_accepts_exactly_valid_urls (u : string) :
  match parsePRUrl u with
  | Ok ref =>
      valid_pr_url u
      /\ exists d, pr_url u (owner ref) (repo ref) d /\ 0 < pr_number d
                   /\ prNumber ref = toNumber (pr_number d)
  | Throw e =>
      ~ valid_pr_url u
      /\ invalid_url_error u e
      /\ ((forall o r d, ~ pr_url u o r d)
            /\ e = JsError (invalid_url_message u)
          \/ (exists o r d, pr_url u o r d /\ pr_number d <= 0)
            /\ e = JsError (invalid_number_message u))
  end.
Proof.
  destruct (pr_url_dec u) as [(o & r & d & H) | H].
  - rewrite (parsePRUrl_pr_url _ _ _ _ H).
    destruct (Z.ltb_spec 0 (pr_number d)) as [Hpos | Hle].
    + split; [now exists o, r, d | now exists d].
    + split; [|split].
      * intros (o' & r' & d' & H' & Hpos).
        destruct (pr_url_unique _ _ _ _ _ _ _ H H') as (_ & _ & <-). lia.
      * now right.
      * right. split; [now exists o, r, d | reflexivity].
  - rewrite (parsePRUrl_no_match _ H). split; [|split].
    + intros (o & r & d & H' & _). now destruct (H o r d).
    + now left.
    + left. now split.
Qed.

(** C3, as amended.  For a URL of the grammar whose number is positive and
    at most [Number.MAX_SAFE_INTEGER], [parsePRUrl] returns the owner, the
    repository and the number exactly, and formatting the result gives the
    normal form of the URL; on a string that is not a valid URL it throws. *)
Theorem parsePRUrl_exact_up_to_safe_integers :
  (forall u o r d : string,
      pr_url u o r d -> 0 < pr_number d -> pr_number d <= MAX_SAFE_INTEGER ->
      let ref := {| owner := o; repo := r; prNumber := Fin (pr_number d) |} in
      parsePRUrl u = Ok ref /\ format ref = normalizedForm u)
  /\ (forall u : string,
        ~ valid_pr_url u -> exists e, parsePRUrl u = Throw e).
Proof.
  split.
  - intros u o r d H Hpos Hsafe ref. split.
    + rewrite (parsePRUrl_pr_url _ _ _ _ H).
      rewrite toNumber_safe by lia.
      now apply Z.ltb_lt in Hpos as ->.
    + now rewrite (normalizedForm_pr_url _ _ _ _ H).
  - intros u H. destruct (invalid_pr_url_throws u H) as (e & He & _). eauto.
Qed.

Lemma pytorch_url_parts :
  pr_url Demo.pytorch_url "pytorch" "pytorch" "172511".
Proof.
  apply (pr_url_intro "http" "www." "pytorch" "pytorch" "172511" "/");
    try (split; [discriminate | reflexivity]); auto.
Qed.

Lemma parsePRUrl_exact_up_to_safe_integers_witness :
  parsePRUrl Demo.pytorch_url
  = Ok {| owner := "pytorch"; repo := "pytorch"; prNumber := Fin 172511 |}
  /\ format {| owner := "pytorch"; repo := "pytorch"; prNumber := Fin 172511 |}
     = normalizedForm Demo.pytorch_url
  /\ normalizedForm Demo.pytorch_url
     = "https://github.com/pytorch/pytorch/pull/172511".
Proof.
  destruct (proj1 parsePRUrl_exact_up_to_safe_integers
              Demo.pytorch_url "pytorch" "pytorch" "172511"
              pytorch_url_parts) as [Hparse Hformat].
  - reflexivity.
  - unfold MAX_SAFE_INTEGER. vm_compute. discriminate.
  - split; [exact Hparse | split; [exact Hformat | reflexivity]].
Defined.

(** C3, the claim as written fails: the number of a valid URL beyond
    [Number.MAX_SAFE_INTEGER] is rounded, so the reference returned does not
    carry the number of the URL, and formatting it does not give the normal
    form of the URL. *)
Lemma parsePRUrl_rounds_large_numbers :
  pr_url Demo.unsafe_url "o" "r" "9007199254740993"
  /\ pr_number "9007199254740993" = 9007199254740993
  /\ parsePRUrl Demo.unsafe_url
     = Ok {| owner := "o"; repo := "r"; prNumber := Fin 9007199254740992 |}
  /\ parsePRUrl Demo.unsafe_url
     <> Ok {| owner := "o"; repo := "r";
              prNumber := Fin (pr_number "9007199254740993") |}
  /\ format {| owner := "o"; repo := "r"; prNumber := Fin 9007199254740992 |}
     = "https://github.com/o/r/pull/9007199254740992"
  /\ normalizedForm Demo.unsafe_url
     = "https://github.com/o/r/pull/9007199254740993"
  /\ (forall ref, parsePRUrl Demo.unsafe_url = Ok ref ->
                  format ref <> normalizedForm Demo.unsafe_url).
Proof.
  split; [|repeat split; try (vm_compute; reflexivity)].
  - apply (pr_url_intro "https" "" "o" "r" "9007199254740993" "");
      try (split; [discriminate | reflexivity]); auto.
  - vm_compute. discriminate.
  - intros ref H. vm_compute in H. injection H as <-.
    vm_compute. discriminate.
Qed.

(* ================================================================== *)
(** * The orchestrator: properties of every run                         *)
(* ================================================================== *)

Section Orchestrator.

Context {World : Type}.
Variable checkoutPRBranch : number -> string -> World -> Result unit * World.
Variable fetchPRComments :
  string -> string -> number -> World -> Result (list PRComment) * World.
Variable processCommentWithClaude :
  PRComment -> World -> Result CommentProcessResult * World.

Local Notation "'body_'" :=
  (action_body checkoutPRBranch fetchPRComments processCommentWithClaude).
Local Notation "'run_'" :=
  (run checkoutPRBranch fetchPRComments processCommentWithClaude).
Local Notation "'one_'" := (process_one processCommentWithClaude).

(** ** Invariants of the events and of the world *)

Section Respects.

Variable Q : Event -> Prop.
Variable R : World -> World -> Prop.
Hypothesis R_refl : forall w, R w w.
Hypothesis R_trans : forall a b c, R a b -> R b c -> R a c.

Lemma respects_ret {A : Type} (a : A) : respects Q R (ret a).
Proof.
  intros st. exists []. simpl. rewrite app_nil_r. auto.
Qed.

Lemma respects_lift {A : Type} (r : Result A) : respects Q R (lift r).
Proof.
  intros st. exists []. simpl. rewrite app_nil_r. auto.
Qed.

Lemma respects_emit (e : Event) : Q e -> respects Q R (emit e).
Proof.
  intros He st. exists [e]. simpl. auto.
Qed.

Lemma respects_call {A : Type} (e : Event) (f : World -> Result A * World) :
  Q e -> (forall w, R w (snd (f w))) -> respects Q R (call e f).
Proof.
  intros He Hf st. exists [e]. unfold call.
  specialize (Hf (world st)). destruct (f (world st)) as [r w']. simpl. auto.
Qed.

Lemma respects_bind {A B : Type} (m : M A) (k : A -> M B) :
  respects Q R m -> (forall a, respects Q R (k a)) -> respects Q R (bind m k).
Proof.
  intros Hm Hk st. unfold bind.
  destruct (Hm st) as (tr1 & Htr1 & HQ1 & HR1).
  destruct (m st) as [[a | e] st']; simpl in *.
  - destruct (Hk a st') as (tr2 & Htr2 & HQ2 & HR2).
    exists (tr1 ++ tr2)%list. rewrite Htr2, Htr1, app_assoc.
    repeat split; [now apply Forall_app | eauto].
  - exists tr1. auto.
Qed.

Lemma respects_try_catch {A : Type} (m : M A) (h : exn -> M A) :
  respects Q R m -> (forall e, respects Q R (h e)) ->
  respects Q R (try_catch m h).
Proof.
  intros Hm Hh st. unfold try_catch.
  destruct (Hm st) as (tr1 & Htr1 & HQ1 & HR1).
  destruct (m st) as [[a | e] st']; simpl in *.
  - exists tr1. auto.
  - destruct (Hh e st') as (tr2 & Htr2 & HQ2 & HR2).
    exists (tr1 ++ tr2)%list. rewrite Htr2, Htr1, app_assoc.
    repeat split; [now apply Forall_app | eauto].
Qed.

Lemma respects_for_of {A : Type} (l : list A) (body : A -> M unit) :
  (forall x, respects Q R (body x)) -> respects Q R (for_of l body).
Proof.
  intros Hbody. induction l as [|x l IH]; simpl.
  - apply respects_ret.
  - apply respects_bind; auto.
Qed.

End Respects.

Ltac respects_steps refl trans :=
  repeat first
    [ apply (respects_bind _ _ trans); [ | intros ? ]
    | apply (respects_try_catch _ _ trans); [ | intros ? ]
    | apply (respects_for_of _ _ refl trans); intros ?
    | apply (respects_ret _ _ refl)
    | apply (respects_lift _ _ refl)
    | apply (respects_emit _ _ refl) ].

(** The [try] block only does what its three imports and the console do:
    when the events it logs satisfy [Q] and each import it calls keeps the
    world within [R], so does the block.  A dry run calls the fetch only. *)
Lemma action_body_respects (Q : Event -> Prop) (R : World -> World -> Prop)
    (prUrl : string) (options : Options) (cwd : string) :
  (forall w, R w w) -> (forall a b c, R a b -> R b c -> R a c) ->
  (forall t, Q (ConsoleLog t)) ->
  (dryRun options = false ->
   (forall n d, Q (CallCheckout n d))
   /\ (forall n d w, R w (snd (checkoutPRBranch n d w)))) ->
  (forall o r n, Q (CallFetch o r n)) ->
  (forall o r n w, R w (snd (fetchPRComments o r n w))) ->
  (dryRun options = false ->
   (forall c, Q (CallProcess c))
   /\ (forall c w, R w (snd (processCommentWithClaude c w)))) ->
  respects Q R (body_ prUrl options cwd).
Proof.
  intros Hrefl Htrans Hlog Hcheckout HQfetch HRfetch Hprocess.
  unfold action_body, process_one, console_log.
  destruct (dryRun options) eqn:Hdry; simpl negb; cbv iota.
  - respects_steps Hrefl Htrans; auto.
    apply respects_call; auto.
  - destruct (Hcheckout eq_refl) as [HQc HRc].
    destruct (Hprocess eq_refl) as [HQp HRp].
    respects_steps Hrefl Htrans; auto.
    + apply respects_call; auto.
    + apply respects_call; auto.
    + apply respects_call; auto.
    + match goal with |- context [fixed ?r] => destruct (fixed r) end;
        apply respects_emit; auto.
Qed.

Lemma action_respects (Q : Event -> Prop) (R : World -> World -> Prop)
    (prUrl : string) (options : Options) (cwd : string) :
  (forall w, R w w) -> (forall a b c, R a b -> R b c -> R a c) ->
  (forall a, Q (ConsoleError a)) -> Q (ProcessExit 1) ->
  respects Q R (body_ prUrl options cwd) ->
  respects Q R
    (action checkoutPRBranch fetchPRComments processCommentWithClaude
       prUrl options cwd).
Proof.
  intros Hrefl Htrans Herr Hexit Hbody. unfold action.
  apply (respects_try_catch _ _ Htrans); [exact Hbody|].
  intros e. unfold on_error. respects_steps Hrefl Htrans; auto.
Qed.

(** ** The exit code *)

Lemma exit_code_no_exit (tr : list Event) :
  Forall (fun e => is_exit e = false) tr -> exit_code tr = 0.
Proof.
  induction 1 as [|e tr He _ IH]; simpl; [reflexivity|].
  destruct e; try discriminate; exact IH.
Qed.

Lemma exit_code_app (tr rest : list Event) :
  Forall (fun e => is_exit e = false) tr ->
  exit_code (tr ++ rest) = exit_code rest.
Proof.
  induction 1 as [|e tr He _ IH]; simpl; [reflexivity|].
  destruct e; try discriminate; exact IH.
Qed.

Lemma action_body_no_exit (prUrl : string) (options : Options) (cwd : string)
    (w : World) :
  Forall (fun e => is_exit e = false)
    (trace (snd (body_ prUrl options cwd {| world := w; trace := [] |}))).
Proof.
  destruct (action_body_respects (fun e => is_exit e = false)
              (fun _ _ => True) prUrl options cwd) with
    (st := {| world := w; trace := [] |}) as (tr & -> & H & _); auto.
Qed.

(** A run whose [try] block ends normally. *)
Lemma run_Ok (prUrl : string) (options : Options) (cwd : string)
    (w : World) (st : State) :
  body_ prUrl options cwd {| world := w; trace := [] |} = (Ok tt, st) ->
  run_ prUrl options cwd w
  = {| final := world st; events := trace st; exitCode := 0 |}.
Proof.
  intros H. pose proof (action_body_no_exit prUrl options cwd w) as Hno.
  unfold run, action, try_catch. rewrite H in *. simpl in *.
  now rewrite exit_code_no_exit.
Qed.

(** A run whose [try] block throws: the one path every failure takes. *)
Lemma run_Throw (prUrl : string) (options : Options) (cwd : string)
    (w : World) (e : exn) (st : State) :
  body_ prUrl options cwd {| world := w; trace := [] |} = (Throw e, st) ->
  run_ prUrl options cwd w
  = {| final := world st;
       events := trace st ++ [ConsoleError ["Error:"; error_text e];
                              ProcessExit 1];
       exitCode := 1 |}.
Proof.
  intros H. pose proof (action_body_no_exit prUrl options cwd w) as Hno.
  unfold run, action, try_catch. rewrite H in *. simpl in *.
  rewrite <- app_assoc. simpl. now rewrite exit_code_app.
Qed.

(** ** The loop over the comments *)

Lemma processed_app (a b : list Event) :
  processed (a ++ b) = (processed a ++ processed b)%list.
Proof.
  induction a as [|e a IH]; simpl; [reflexivity|].
  destruct e; simpl; now rewrite ?IH.
Qed.

Lemma process_one_Ok (options : Options) (c : PRComment) (w w1 : World)
    (res : CommentProcessResult) (tr : list Event) :
  dryRun options = false ->
  processCommentWithClaude c w = (Ok res, w1) ->
  exists tr',
    one_ options c {| world := w; trace := tr |}
    = (Ok tt, {| world := w1; trace := tr ++ tr' |})
    /\ processed tr' = [c].
Proof.
  intros Hdry E. unfold process_one. rewrite Hdry.
  unfold bind, console_log, emit, call. simpl. rewrite E. simpl.
  destruct (fixed res); simpl; eexists;
    (split; [repeat rewrite <- app_assoc; simpl; reflexivity | reflexivity]).
Qed.

Lemma process_one_Throw (options : Options) (c : PRComment) (w w1 : World)
    (e : exn) (tr : list Event) :
  dryRun options = false ->
  processCommentWithClaude c w = (Throw e, w1) ->
  exists tr',
    one_ options c {| world := w; trace := tr |}
    = (Throw e, {| world := w1; trace := tr ++ tr' |})
    /\ processed tr' = [c].
Proof.
  intros Hdry E. unfold process_one. rewrite Hdry.
  unfold bind, console_log, emit, call. simpl. rewrite E. simpl.
  eexists.
  split; [repeat rewrite <- app_assoc; simpl; reflexivity | reflexivity].
Qed.

(** When the agent handles every comment, the loop hands it each of them
    in order. *)
Lemma for_of_processes_all (options : Options) :
  dryRun options = false ->
  forall cs w w' tr,
    after_processing processCommentWithClaude cs w = Some w' ->
    exists tr',
      for_of cs (one_ options) {| world := w; trace := tr |}
      = (Ok tt, {| world := w'; trace := tr ++ tr' |})
      /\ processed tr' = cs.
Proof.
  intros Hdry. induction cs as [|c cs IH]; simpl; intros w w' tr H.
  - injection H as <-. exists []. now rewrite app_nil_r.
  - destruct (processCommentWithClaude c w) as [[res | e] w1] eqn:E;
      [|discriminate].
    destruct (process_one_Ok options c w w1 res tr Hdry E) as (t1 & E1 & P1).
    destruct (IH w1 w' (tr ++ t1)%list H) as (t2 & E2 & P2).
    exists (t1 ++ t2)%list. unfold bind. rewrite E1, E2, app_assoc.
    split; [reflexivity|]. now rewrite processed_app, P1, P2.
Qed.

(** When the agent throws on a comment, the loop stops there. *)
Lemma for_of_stops_at_failure (options : Options) :
  dryRun options = false ->
  forall pre c post w w1 w2 e tr,
    after_processing processCommentWithClaude pre w = Some w1 ->
    processCommentWithClaude c w1 = (Throw e, w2) ->
    exists tr',
      for_of (pre ++ c :: post) (one_ options) {| world := w; trace := tr |}
      = (Throw e, {| world := w2; trace := tr ++ tr' |})
      /\ processed tr' = (pre ++ [c])%list.
Proof.
  intros Hdry. induction pre as [|p pre IH]; simpl;
    intros c post w w1 w2 e tr H Hc.
  - injection H as <-.
    destruct (process_one_Throw options c w w2 e tr Hdry Hc) as (t1 & E1 & P1).
    exists t1. unfold bind. now rewrite E1.
  - destruct (processCommentWithClaude p w) as [[res | e'] w'] eqn:E;
      [|discriminate].
    destruct (process_one_Ok options p w w' res tr Hdry E) as (t1 & E1 & P1).
    destruct (IH c post w' w1 w2 e (tr ++ t1)%list H Hc) as (t2 & E2 & P2).
    exists (t1 ++ t2)%list. unfold bind. rewrite E1, E2, app_assoc.
    split; [reflexivity|]. now rewrite processed_app, P1, P2.
Qed.

(** ** The run up to the loop *)

Lemma body_parse_Throw (prUrl : string) (options : Options) (cwd : string)
    (w : World) (e : exn) :
  parsePRUrl prUrl = Throw e ->
  body_ prUrl options cwd {| world := w; trace := [] |}
  = (Throw e,
     {| world := w;
        trace := [ ConsoleLog [Str "Processing PR: "; Str prUrl];
                   ConsoleLog [Str "Repository directory: ";
                               Str (repo_dir options cwd)] ] |}).
Proof.
  intros H. unfold action_body, bind, console_log, emit, lift. simpl.
  now rewrite H.
Qed.

Lemma body_checkout_Throw (prUrl : string) (options : Options) (cwd : string)
    (w w' : World) (ref : ParsedPRUrl) (e : exn) :
  parsePRUrl prUrl = Ok ref -> dryRun options = false ->
  checkoutPRBranch (prNumber ref) (repo_dir options cwd) w = (Throw e, w') ->
  body_ prUrl options cwd {| world := w; trace := [] |}
  = (Throw e,
     {| world := w';
        trace := [ ConsoleLog [Str "Processing PR: "; Str prUrl];
                   ConsoleLog [Str "Repository directory: ";
                               Str (repo_dir options cwd)];
                   ConsoleLog [Str "Parsed: "; Str (owner ref); Str "/";
                               Str (repo ref); Str "#"; Num (prNumber ref)];
                   CallCheckout (prNumber ref) (repo_dir options cwd) ] |}).
Proof.
  intros Hparse Hdry Hc.
  unfold action_body, bind, console_log, emit, lift, call. simpl.
  rewrite Hparse, Hdry. simpl. now rewrite Hc.
Qed.

Lemma body_fetch_Throw (prUrl : string) (options : Options) (cwd : string)
    (w w1 w2 : World) (ref : ParsedPRUrl) (e : exn) :
  parsePRUrl prUrl = Ok ref ->
  after_checkout checkoutPRBranch options ref cwd w = Some w1 ->
  fetchPRComments (owner ref) (repo ref) (prNumber ref) w1 = (Throw e, w2) ->
  body_ prUrl options cwd {| world := w; trace := [] |}
  = (Throw e,
     {| world := w2;
        trace := events_before_fetch prUrl options cwd ref
                 ++ [CallFetch (owner ref) (repo ref) (prNumber ref)] |}).
Proof.
  intros Hparse Hco Hf. unfold after_checkout in Hco.
  unfold action_body, events_before_fetch, bind, console_log, emit, lift, call.
  simpl. rewrite Hparse. destruct (dryRun options); simpl.
  - injection Hco as <-. now rewrite Hf.
  - destruct (checkoutPRBranch _ _ w) as [[[] | e'] w'];
      [injection Hco as -> | discriminate].
    simpl. now rewrite Hf.
Qed.

Lemma body_fetch_Ok (prUrl : string) (options : Options) (cwd : string)
    (w w1 w2 : World) (ref : ParsedPRUrl) (cs : list PRComment) :
  parsePRUrl prUrl = Ok ref ->
  after_checkout checkoutPRBranch options ref cwd w = Some w1 ->
  fetchPRComments (owner ref) (repo ref) (prNumber ref) w1 = (Ok cs, w2) ->
  body_ prUrl options cwd {| world := w; trace := [] |}
  = bind (for_of cs (one_ options))
      (fun _ =>
         console_log
           [Str (LF ++ "Done! Review the commits and push when ready.")])
      {| world := w2;
         trace := events_before_fetch prUrl options cwd ref
                  ++ [ CallFetch (owner ref) (repo ref) (prNumber ref);
                       ConsoleLog [Str "Found ";
                                   Num (Fin (Z.of_nat (List.length cs)));
                                   Str " review comments"] ] |}.
Proof.
  intros Hparse Hco Hf. unfold after_checkout in Hco.
  unfold action_body, events_before_fetch.
  unfold bind at 1 2 3 4 5 6 7. unfold console_log, emit, lift, call.
  simpl. rewrite Hparse. destruct (dryRun options); simpl.
  - injection Hco as <-. now rewrite Hf.
  - destruct (checkoutPRBranch _ _ w) as [[[] | e'] w'];
      [injection Hco as -> | discriminate].
    simpl. now rewrite Hf.
Qed.

Lemma events_before_fetch_processed (prUrl : string) (options : Options)
    (cwd : string) (ref : ParsedPRUrl) (rest : list Event) :
  processed (events_before_fetch prUrl options cwd ref ++ rest)
  = processed rest.
Proof. unfold events_before_fetch. now destruct (dryRun options). Qed.

Lemma events_before_fetch_checkout (prUrl : string) (options : Options)
    (cwd : string) (ref : ParsedPRUrl) (rest : list Event) :
  existsb is_call_checkout
    (events_before_fetch prUrl options cwd ref ++ rest)
  = negb (dryRun options) || existsb is_call_checkout rest.
Proof. unfold events_before_fetch. now destruct (dryRun options). Qed.

(** What follows the fetch only adds events. *)
Lemma loop_extends_trace (options : Options) (cs : list PRComment)
    (k : unit -> M unit) (st : State) :
  (forall u, respects (fun _ => True) (fun _ _ : World => True) (k u)) ->
  exists tr,
    trace (snd (bind (for_of cs (one_ options)) k st)) = (trace st ++ tr)%list.
Proof.
  intros Hk.
  assert (H : respects (fun _ => True) (fun _ _ : World => True)
                (bind (for_of cs (one_ options)) k)).
  { apply respects_bind; auto.
    apply respects_for_of; auto. intros c.
    unfold process_one, console_log.
    destruct (dryRun options); simpl negb; cbv iota.
    - respects_steps (fun _ : World => I)
        (fun (_ _ _ : World) (_ _ : True) => I); auto.
    - respects_steps (fun _ : World => I)
        (fun (_ _ _ : World) (_ _ : True) => I); auto.
      + apply respects_call; auto.
      + match goal with |- context [fixed ?r] => destruct (fixed r) end;
          apply respects_emit; auto. }
  destruct (H st) as (tr & Htr & _). eauto.
Qed.

(** The checkout is attempted in every run that is not a dry run, once the
    URL has been parsed. *)
Lemma run_calls_checkout (prUrl : string) (options : Options) (cwd : string)
    (w : World) (ref : ParsedPRUrl) :
  parsePRUrl prUrl = Ok ref -> dryRun options = false ->
  existsb is_call_checkout (events (run_ prUrl options cwd w)) = true.
Proof.
  intros Hparse Hdry.
  destruct (checkoutPRBranch (prNumber ref) (repo_dir options cwd) w)
    as [[[] | e] w1] eqn:Hc.
  - assert (Hco : after_checkout checkoutPRBranch options ref cwd w = Some w1)
      by (unfold after_checkout; now rewrite Hdry, Hc).
    destruct (fetchPRComments (owner ref) (repo ref) (prNumber ref) w1)
      as [[cs | e] w2] eqn:Hf.
    + pose proof (body_fetch_Ok _ _ _ _ _ _ _ _ Hparse Hco Hf) as Hbody.
      match type of Hbody with
      | _ = bind (for_of cs _) ?k ?st =>
          destruct (loop_extends_trace options cs k st) as (tr & Htr);
            [ intros u; apply respects_emit; auto | ];
            destruct (bind (for_of cs (one_ options)) k st)
              as [[[] | e] st'] eqn:E
      end; cbn [trace snd] in Htr.
      * rewrite (run_Ok _ _ _ _ _ Hbody). cbn [events]. rewrite Htr.
        rewrite <- app_assoc, events_before_fetch_checkout.
        now rewrite Hdry.
      * rewrite (run_Throw _ _ _ _ _ _ Hbody). cbn [events]. rewrite Htr.
        rewrite <- !app_assoc, events_before_fetch_checkout.
        now rewrite Hdry.
    + rewrite (run_Throw _ _ _ _ _ _
                 (body_fetch_Throw _ _ _ _ _ _ _ _ Hparse Hco Hf)).
      cbn [events trace]. rewrite <- app_assoc, events_before_fetch_checkout.
      now rewrite Hdry.
  - now rewrite (run_Throw _ _ _ _ _ _
                   (body_checkout_Throw _ _ _ _ _ _ _ Hparse Hdry Hc)).
Qed.

End Orchestrator.

(* ================================================================== *)
(** * The orchestrator: the claims                                      *)
(* ================================================================== *)

Lemma existsb_all_false {A : Type} (p : A -> bool) (l : list A) :
  Forall (fun x => p x = false) l -> existsb p l = false.
Proof.
  induction 1 as [|x l Hx _ IH]; simpl; [reflexivity | now rewrite Hx].
Qed.

(** C4.  In a run with [--dry-run] the agent is never invoked and no branch
    is checked out; the fetch is the one import such a run calls, so when
    the fetch leaves the head commit of the working directory alone, the
    head at the end of the run is the head at its start. *)
Theorem dry_run_calls_neither_checkout_nor_agent
    {World Commit : Type} (head : World -> Commit)
    (checkoutPRBranch : number -> string -> World -> Result unit * World)
    (fetchPRComments :
       string -> string -> number -> World -> Result (list PRComment) * World)
    (processCommentWithClaude :
       PRComment -> World -> Result CommentProcessResult * World)
    (prUrl : string) (options : Options) (cwd : string) (w : World) :
  dryRun options = true ->
  (forall o r n w', head (snd (fetchPRComments o r n w')) = head w') ->
  existsb is_call_process
    (events (run checkoutPRBranch fetchPRComments processCommentWithClaude
               prUrl options cwd w)) = false
  /\ existsb is_call_checkout
       (events (run checkoutPRBranch fetchPRComments processCommentWithClaude
                  prUrl options cwd w)) = false
  /\ head (final (run checkoutPRBranch fetchPRComments
                    processCommentWithClaude prUrl options cwd w))
     = head w.
Proof.
  intros Hdry Hfetch.
  pose (Q := fun e => is_call_process e = false /\ is_call_checkout e = false).
  pose (R := fun a b : World => head b = head a).
  assert (Hrefl : forall a, R a a) by reflexivity.
  assert (Htrans : forall a b c, R a b -> R b c -> R a c)
    by (unfold R; intros a b c H1 H2; congruence).
  destruct (action_respects checkoutPRBranch fetchPRComments
              processCommentWithClaude Q R prUrl options cwd Hrefl Htrans)
    with (st := {| world := w; trace := [] |}) as (tr & Htr & HQ & HR).
  - now split.
  - now split.
  - apply action_body_respects; try assumption; try (now split);
      try (intros Hfalse; congruence).
  - unfold run. cbn [events final]. rewrite Htr. cbn [trace app].
    repeat split.
    + apply existsb_all_false. eapply Forall_impl; [|exact HQ]. now intros e [].
    + apply existsb_all_false. eapply Forall_impl; [|exact HQ]. now intros e [].
    + exact HR.
Qed.

Lemma dry_run_calls_neither_checkout_nor_agent_witness :
  existsb is_call_process
    (events (run Demo.checkout Demo.fetch Demo.agent Demo.url
               (Demo.options true) "/repo" Demo.clean)) = false
  /\ existsb is_call_checkout
       (events (run Demo.checkout Demo.fetch Demo.agent Demo.url
                  (Demo.options true) "/repo" Demo.clean)) = false
  /\ Demo.head (final (run Demo.checkout Demo.fetch Demo.agent Demo.url
                         (Demo.options true) "/repo" Demo.clean))
     = "c0".
Proof.
  apply (dry_run_calls_neither_checkout_nor_agent Demo.head
           Demo.checkout Demo.fetch Demo.agent Demo.url (Demo.options true)
           "/repo" Demo.clean).
  - reflexivity.
  - intros o r n w'. reflexivity.
Defined.

(** C7.  No run pushes.  All a run does to the world it does through its
    three imports, on the paths that succeed and on those that fail: when
    none of them changes what the remote holds, the remote holds at the end
    of the run what it held at its start.  With the imports as the sources
    have them a run changes nothing at all. *)
Theorem run_never_pushes
    {World Remote : Type} (remote : World -> Remote)
    (checkoutPRBranch : number -> string -> World -> Result unit * World)
    (fetchPRComments :
       string -> string -> number -> World -> Result (list PRComment) * World)
    (processCommentWithClaude :
       PRComment -> World -> Result CommentProcessResult * World) :
  (forall n d w, remote (snd (checkoutPRBranch n d w)) = remote w) ->
  (forall o r n w, remote (snd (fetchPRComments o r n w)) = remote w) ->
  (forall c w, remote (snd (processCommentWithClaude c w)) = remote w) ->
  forall (prUrl : string) (options : Options) (cwd : string) (w : World),
    remote (final (run checkoutPRBranch fetchPRComments
                     processCommentWithClaude prUrl options cwd w))
    = remote w
    /\ final (run GitHub.checkoutPRBranch GitHub.fetchPRComments
                Claude.processCommentWithClaude prUrl options cwd w)
       = w.
Proof.
  intros Hc Hf Hp prUrl options cwd w.
  assert (Hgen : forall (T : Type) (obs : World -> T) co fe pr,
             (forall n d w, obs (snd (co n d w)) = obs w) ->
             (forall o r n w, obs (snd (fe o r n w)) = obs w) ->
             (forall c w, obs (snd (pr c w)) = obs w) ->
             obs (final (run co fe pr prUrl options cwd w)) = obs w).
  { intros T obs co fe pr Hco Hfe Hpr.
    pose (R := fun a b : World => obs b = obs a).
    assert (Hrefl : forall a, R a a) by reflexivity.
    assert (Htrans : forall a b c, R a b -> R b c -> R a c)
      by (unfold R; intros a b c H1 H2; congruence).
    destruct (action_respects co fe pr (fun _ => True) R prUrl options cwd
                Hrefl Htrans)
      with (st := {| world := w; trace := [] |}) as (tr & _ & _ & HR); auto.
    apply action_body_respects; auto. }
  split.
  - now apply Hgen.
  - now apply (Hgen World (fun x => x)).
Qed.

Lemma run_never_pushes_witness :
  exitCode (run Demo.checkout Demo.fetch Demo.agent Demo.url
              (Demo.options false) "/repo" Demo.clean) = 0
  /\ Demo.head (final (run Demo.checkout Demo.fetch Demo.agent Demo.url
                         (Demo.options false) "/repo" Demo.clean)) = "c1"
  /\ Demo.remote (final (run Demo.checkout Demo.fetch Demo.agent Demo.url
                           (Demo.options false) "/repo" Demo.clean))
     = Demo.remote Demo.clean.
Proof.
  split; [reflexivity | split; [reflexivity|]].
  apply (run_never_pushes Demo.remote Demo.checkout Demo.fetch Demo.agent);
    reflexivity.
Defined.

(** C5, as amended.  A failure of the agent on a comment ends the run: the
    comments before it have been handed to the agent in order, no comment
    after it is, and the run ends by printing the message of the error and
    leaving with code 1, without a summary. *)
Theorem processing_failure_ends_run
    {World : Type}
    (checkoutPRBranch : number -> string -> World -> Result unit * World)
    (fetchPRComments :
       string -> string -> number -> World -> Result (list PRComment) * World)
    (processCommentWithClaude :
       PRComment -> World -> Result CommentProcessResult * World)
    (prUrl : string) (options : Options) (cwd : string)
    (w w1 w2 w3 w4 : World) (ref : ParsedPRUrl)
    (before : list PRComment) (c : PRComment) (after : list PRComment)
    (e : exn) :
  dryRun options = false ->
  parsePRUrl prUrl = Ok ref ->
  after_checkout checkoutPRBranch options ref cwd w = Some w1 ->
  fetchPRComments (owner ref) (repo ref) (prNumber ref) w1
  = (Ok (before ++ c :: after)%list, w2) ->
  after_processing processCommentWithClaude before w2 = Some w3 ->
  processCommentWithClaude c w3 = (Throw e, w4) ->
  let r := run checkoutPRBranch fetchPRComments processCommentWithClaude
             prUrl options cwd w in
  processed (events r) = (before ++ [c])%list
  /\ (exists tr,
        events r
        = (tr ++ [ConsoleError ["Error:"; error_text e]; ProcessExit 1])%list)
  /\ exitCode r = 1
  /\ final r = w4.
Proof.
  intros Hdry Hparse Hco Hf Hpre Hc r.
  pose proof (body_fetch_Ok checkoutPRBranch fetchPRComments
                processCommentWithClaude _ _ _ _ _ _ _ _ Hparse Hco Hf)
    as Hbody.
  match type of Hbody with
  | _ = bind _ _ {| world := _; trace := ?t |} =>
      destruct (for_of_stops_at_failure processCommentWithClaude options Hdry
                  before c after w2 w3 w4 e t Hpre Hc) as (tr' & Hloop & Hp)
  end.
  unfold bind in Hbody at 1. rewrite Hloop in Hbody.
  subst r. rewrite (run_Throw _ _ _ _ _ _ _ _ _ Hbody). cbn [events exitCode final world trace].
  repeat split.
  - rewrite <- !app_assoc, events_before_fetch_processed.
    cbn [app processed]. rewrite processed_app, Hp. cbn [processed].
    now rewrite app_nil_r.
  - eauto.
Qed.

Lemma processing_failure_ends_run_witness :
  processed (events (run Demo.checkout Demo.fetch Demo.failing_agent Demo.url
                       (Demo.options false) "/repo" Demo.clean))
  = [Demo.first_comment]
  /\ (exists tr,
        events (run Demo.checkout Demo.fetch Demo.failing_agent Demo.url
                  (Demo.options false) "/repo" Demo.clean)
        = (tr ++ [ConsoleError ["Error:"; "agent failed"]; ProcessExit 1])%list)
  /\ exitCode (run Demo.checkout Demo.fetch Demo.failing_agent Demo.url
                 (Demo.options false) "/repo" Demo.clean) = 1
  /\ final (run Demo.checkout Demo.fetch Demo.failing_agent Demo.url
              (Demo.options false) "/repo" Demo.clean)
     = {| Demo.head := "pr"; Demo.dirty := []; Demo.remote := ["c0"] |}.
Proof.
  apply (processing_failure_ends_run Demo.checkout Demo.fetch
           Demo.failing_agent Demo.url (Demo.options false) "/repo"
           Demo.clean
           {| Demo.head := "pr"; Demo.dirty := []; Demo.remote := ["c0"] |}
           {| Demo.head := "pr"; Demo.dirty := []; Demo.remote := ["c0"] |}
           {| Demo.head := "pr"; Demo.dirty := []; Demo.remote := ["c0"] |}
           {| Demo.head := "pr"; Demo.dirty := []; Demo.remote := ["c0"] |}
           {| owner := "owner"; repo := "repo"; prNumber := Fin 12 |}
           [] Demo.first_comment [Demo.second_comment]
           (JsError "agent failed"));
    reflexivity.
Defined.

(** C5, the claim as written fails: the agent fails on the first of two
    fetched comments, and the second is never handed to it; the run ends
    there with code 1. *)
Lemma failure_on_first_comment_skips_second :
  fst (Demo.fetch "owner" "repo" (Fin 12) Demo.clean)
  = Ok [Demo.first_comment; Demo.second_comment]
  /\ fst (Demo.failing_agent Demo.first_comment Demo.clean)
     = Throw (JsError "agent failed")
  /\ processed (events (run Demo.checkout Demo.fetch Demo.failing_agent
                          Demo.url (Demo.options false) "/repo" Demo.clean))
     = [Demo.first_comment]
  /\ ~ In (CallProcess Demo.second_comment)
         (events (run Demo.checkout Demo.fetch Demo.failing_agent
                    Demo.url (Demo.options false) "/repo" Demo.clean))
  /\ exitCode (run Demo.checkout Demo.fetch Demo.failing_agent
                 Demo.url (Demo.options false) "/repo" Demo.clean) = 1.
Proof.
  repeat split; try reflexivity.
  vm_compute. intuition discriminate.
Qed.

(** C8, as amended.  In a run without [--dry-run] a checkout that fails
    ends the run before the comments are fetched: the message of its error
    is printed, the code is 1, and neither the fetch nor the agent is
    called.  The orchestrator itself does not look at the working
    directory, and there is no way to skip the checkout but a dry run. *)
Theorem checkout_failure_stops_before_fetch
    {World : Type}
    (checkoutPRBranch : number -> string -> World -> Result unit * World)
    (fetchPRComments :
       string -> string -> number -> World -> Result (list PRComment) * World)
    (processCommentWithClaude :
       PRComment -> World -> Result CommentProcessResult * World)
    (prUrl : string) (options : Options) (cwd : string)
    (w w' : World) (ref : ParsedPRUrl) (e : exn) :
  dryRun options = false ->
  parsePRUrl prUrl = Ok ref ->
  checkoutPRBranch (prNumber ref) (repo_dir options cwd) w = (Throw e, w') ->
  let r := run checkoutPRBranch fetchPRComments processCommentWithClaude
             prUrl options cwd w in
  events r
  = [ ConsoleLog [Str "Processing PR: "; Str prUrl];
      ConsoleLog [Str "Repository directory: "; Str (repo_dir options cwd)];
      ConsoleLog [Str "Parsed: "; Str (owner ref); Str "/"; Str (repo ref);
                  Str "#"; Num (prNumber ref)];
      CallCheckout (prNumber ref) (repo_dir options cwd);
      ConsoleError ["Error:"; error_text e];
      ProcessExit 1 ]
  /\ existsb is_call_fetch (events r) = false
  /\ existsb is_call_process (events r) = false
  /\ exitCode r = 1
  /\ final r = w'.
Proof.
  intros Hdry Hparse Hc r. subst r.
  rewrite (run_Throw _ _ _ _ _ _ _ _ _
             (body_checkout_Throw checkoutPRBranch fetchPRComments
                processCommentWithClaude _ _ _ _ _ _ _ Hparse Hdry Hc)).
  repeat split.
Qed.

Lemma checkout_failure_stops_before_fetch_witness :
  events (run Demo.guarded_checkout Demo.fetch Demo.agent Demo.url
            (Demo.options false) "/repo" Demo.dirty_repo)
  = [ ConsoleLog [Str "Processing PR: "; Str Demo.url];
      ConsoleLog [Str "Repository directory: "; Str "/repo"];
      ConsoleLog [Str "Parsed: "; Str "owner"; Str "/"; Str "repo";
                  Str "#"; Num (Fin 12)];
      CallCheckout (Fin 12) "/repo";
      ConsoleError ["Error:"; "Uncommitted changes found: src/index.ts"];
      ProcessExit 1 ]
  /\ existsb is_call_fetch
       (events (run Demo.guarded_checkout Demo.fetch Demo.agent Demo.url
                  (Demo.options false) "/repo" Demo.dirty_repo)) = false
  /\ existsb is_call_process
       (events (run Demo.guarded_checkout Demo.fetch Demo.agent Demo.url
                  (Demo.options false) "/repo" Demo.dirty_repo)) = false
  /\ exitCode (run Demo.guarded_checkout Demo.fetch Demo.agent Demo.url
                 (Demo.options false) "/repo" Demo.dirty_repo) = 1
  /\ final (run Demo.guarded_checkout Demo.fetch Demo.agent Demo.url
              (Demo.options false) "/repo" Demo.dirty_repo)
     = Demo.dirty_repo.
Proof.
  apply (checkout_failure_stops_before_fetch Demo.guarded_checkout Demo.fetch
           Demo.agent Demo.url (Demo.options false) "/repo" Demo.dirty_repo
           Demo.dirty_repo
           {| owner := "owner"; repo := "repo"; prNumber := Fin 12 |}
           (JsError "Uncommitted changes found: src/index.ts"));
    reflexivity.
Defined.

(** C8, the claim as written fails.  The working directory has uncommitted
    changes and there is no [--skip-checkout]: in a dry run the comments
    are fetched all the same and the run ends normally; and with the
    imports as the sources have them, the run that is not a dry run fails
    on the placeholder of the checkout, with a message that names no path. *)
Lemma dirty_directory_is_not_checked :
  Demo.dirty Demo.dirty_repo = ["src/index.ts"]
  /\ existsb is_call_fetch
       (events (run Demo.checkout Demo.fetch Demo.agent Demo.url
                  (Demo.options true) "/repo" Demo.dirty_repo)) = true
  /\ exitCode (run Demo.checkout Demo.fetch Demo.agent Demo.url
                 (Demo.options true) "/repo" Demo.dirty_repo) = 0
  /\ events (run GitHub.checkoutPRBranch GitHub.fetchPRComments
               Claude.processCommentWithClaude Demo.url
               (Demo.options false) "/repo" Demo.dirty_repo)
     = [ ConsoleLog [Str "Processing PR: "; Str Demo.url];
         ConsoleLog [Str "Repository directory: "; Str "/repo"];
         ConsoleLog [Str "Parsed: "; Str "owner"; Str "/"; Str "repo";
                     Str "#"; Num (Fin 12)];
         CallCheckout (Fin 12) "/repo";
         ConsoleError ["Error:"; "Not implemented"];
         ProcessExit 1 ].
Proof. repeat split; reflexivity. Qed.

(* ================================================================== *)
(** * The command line                                                   *)
(* ================================================================== *)

Section CommandLine.

(** A URL that [parsePRUrl] accepts starts with [http]: on the command
    line it is an operand, never taken for an option. *)
Lemma parsed_url_starts_with_h (u : string) (ref : ParsedPRUrl) :
  parsePRUrl u = Ok ref -> exists rest, u = String "h" rest.
Proof.
  intros Hparse. destruct (pr_url_dec u) as [(o & r & d & H) | H].
  - destruct H as [scheme www o r d slash [-> | ->] _ _ _ _ _];
      unfold url_of_parts; simpl; eauto.
  - rewrite (parsePRUrl_no_match _ H) in Hparse. discriminate.
Qed.

Lemma operand_h (rest : string) :
  Commander.maybeOption (String "h" rest) = false.
Proof. unfold Commander.maybeOption. simpl. apply andb_false_r. Qed.

(** Such an argument is kept: with the operands, or with the unknown
    arguments once an unknown option has been met. *)
Lemma parseOptions_operand (rest : string) (args : list string)
    (opts : Options) (operands unknown : list string) :
  Commander.parseOptions (String "h" rest :: args) opts operands unknown
  = match unknown with
    | [] =>
        Commander.parseOptions args opts
          (operands ++ [String "h" rest])%list []
    | _ =>
        Commander.parseOptions args opts operands
          (unknown ++ [String "h" rest])%list
    end.
Proof.
  cbn [Commander.parseOptions]. rewrite operand_h. simpl.
  rewrite andb_false_r. simpl. now destruct unknown.
Qed.

Lemma parseOptions_skip_checkout (args : list string) (opts : Options)
    (operands unknown : list string) :
  Commander.parseOptions ("--skip-checkout" :: args) opts operands unknown
  = Commander.parseOptions args opts operands
      (unknown ++ ["--skip-checkout"])%list.
Proof. reflexivity. Qed.

Lemma parseOptions_dry_run (args : list string) (opts : Options)
    (operands unknown : list string) :
  Commander.parseOptions ("--dry-run" :: args) opts operands unknown
  = Commander.parseOptions args
      {| dryRun := true; directory := directory opts |} operands unknown.
Proof. reflexivity. Qed.

End CommandLine.

(** C9, as amended.  The command line has no [--skip-checkout]: no
    declared option has the name, and for every URL that [parsePRUrl]
    accepts the command lines [--skip-checkout <url>] and
    [<url> --skip-checkout] are refused for an unknown option, where
    [<url>] and [<url> --dry-run] call the action.  In the action the
    checkout is bypassed in a dry run and in no other run; and a checkout
    that fails is never bypassed: the run ends with code 1 before any
    comment is fetched. *)
Theorem checkout_is_skipped_by_dry_run_only
    {World : Type}
    (checkoutPRBranch : number -> string -> World -> Result unit * World)
    (fetchPRComments :
       string -> string -> number -> World -> Result (list PRComment) * World)
    (processCommentWithClaude :
       PRComment -> World -> Result CommentProcessResult * World)
    (prUrl : string) (options : Options) (cwd : string) (w : World)
    (ref : ParsedPRUrl) :
  parsePRUrl prUrl = Ok ref ->
  let r := run checkoutPRBranch fetchPRComments processCommentWithClaude
             prUrl options cwd w in
  (Commander.findOption "--skip-checkout" = None
   /\ Commander.parseArgv ["--skip-checkout"; prUrl]
      = Commander.UnknownOption "--skip-checkout"
   /\ Commander.parseArgv [prUrl; "--skip-checkout"]
      = Commander.UnknownOption "--skip-checkout"
   /\ Commander.parseArgv [prUrl]
      = Commander.Invoke prUrl {| dryRun := false; directory := None |}
   /\ Commander.parseArgv [prUrl; "--dry-run"]
      = Commander.Invoke prUrl {| dryRun := true; directory := None |})
  /\ existsb is_call_checkout (events r) = negb (dryRun options)
  /\ (after_checkout checkoutPRBranch options ref cwd w = None ->
      existsb is_call_fetch (events r) = false /\ exitCode r = 1).
Proof.
  intros Hparse r. subst r. split; [|split].
  - destruct (parsed_url_starts_with_h prUrl ref Hparse) as [rest ->].
    unfold Commander.parseArgv.
    rewrite parseOptions_skip_checkout, !parseOptions_operand,
      parseOptions_skip_checkout, parseOptions_dry_run.
    repeat split.
  - destruct (dryRun options) eqn:Hdry.
    + pose (Q := fun ev => is_call_checkout ev = false).
      destruct (action_respects checkoutPRBranch fetchPRComments
                  processCommentWithClaude Q (fun _ _ => True)
                  prUrl options cwd)
        with (st := {| world := w; trace := [] |}) as (tr & Htr & HQ & _);
        auto; try reflexivity.
      * apply action_body_respects; auto; try reflexivity;
          intros Hfalse; congruence.
      * unfold run. cbn [events]. rewrite Htr. now apply existsb_all_false.
    + now apply run_calls_checkout with (ref := ref).
  - unfold after_checkout. destruct (dryRun options) eqn:Hdry; [discriminate|].
    destruct (checkoutPRBranch (prNumber ref) (repo_dir options cwd) w)
      as [[u | e] w'] eqn:Hc; [discriminate|]. intros _.
    rewrite (run_Throw _ _ _ _ _ _ _ _ _
               (body_checkout_Throw checkoutPRBranch fetchPRComments
                  processCommentWithClaude _ _ _ _ _ _ _ Hparse Hdry Hc)).
    now split.
Qed.

Lemma checkout_is_skipped_by_dry_run_only_witness :
  (Commander.findOption "--skip-checkout" = None
   /\ Commander.parseArgv ["--skip-checkout"; Demo.url]
      = Commander.UnknownOption "--skip-checkout"
   /\ Commander.parseArgv [Demo.url; "--skip-checkout"]
      = Commander.UnknownOption "--skip-checkout"
   /\ Commander.parseArgv [Demo.url]
      = Commander.Invoke Demo.url {| dryRun := false; directory := None |}
   /\ Commander.parseArgv [Demo.url; "--dry-run"]
      = Commander.Invoke Demo.url {| dryRun := true; directory := None |})
  /\ existsb is_call_checkout
       (events (run GitHub.checkoutPRBranch Demo.fetch Demo.agent Demo.url
                  (Demo.options false) "/repo" Demo.clean)) = true
  /\ existsb is_call_fetch
       (events (run GitHub.checkoutPRBranch Demo.fetch Demo.agent Demo.url
                  (Demo.options false) "/repo" Demo.clean)) = false
  /\ exitCode (run GitHub.checkoutPRBranch Demo.fetch Demo.agent
                 Demo.url (Demo.options false) "/repo" Demo.clean) = 1.
Proof.
  destruct (checkout_is_skipped_by_dry_run_only GitHub.checkoutPRBranch
              Demo.fetch Demo.agent Demo.url (Demo.options false) "/repo"
              Demo.clean
              {| owner := "owner"; repo := "repo"; prNumber := Fin 12 |}
              eq_refl) as (Hline & Hcall & Hfail).
  destruct (Hfail eq_refl) as [Hfetch Hexit].
  repeat split; try assumption; apply Hline.
Defined.

(** C9, the claim as written fails: [--skip-checkout] is not an option of
    the command line.  No declared option has the name, and the command
    line of [Demo.url] with it, before or after the URL, is refused for an
    unknown option, where the one with [--dry-run] calls the action. *)
Lemma skip_checkout_is_an_unknown_option :
  Commander.findOption "--skip-checkout" = None
  /\ Commander.parseArgv [Demo.url; "--skip-checkout"]
     = Commander.UnknownOption "--skip-checkout"
  /\ Commander.parseArgv ["--skip-checkout"; Demo.url]
     = Commander.UnknownOption "--skip-checkout"
  /\ Commander.parseArgv [Demo.url; "--dry-run"]
     = Commander.Invoke Demo.url {| dryRun := true; directory := None |}.
Proof. repeat split; reflexivity. Qed.

(** C10.  Every failure takes the same path to the end of the run: whether
    the URL is refused, the checkout fails, the fetch fails or the agent
    fails on a comment, the run prints ["Error:"] and the message of the
    error on the error stream and leaves with code 1, and it is the first
    time the run leaves.  A failure on one comment thus ends the whole
    run. *)
Theorem every_failure_prints_and_exits_1
    {World : Type}
    (checkoutPRBranch : number -> string -> World -> Result unit * World)
    (fetchPRComments :
       string -> string -> number -> World -> Result (list PRComment) * World)
    (processCommentWithClaude :
       PRComment -> World -> Result CommentProcessResult * World)
    (prUrl : string) (options : Options) (cwd : string) (w : World)
    (e : exn) :
  parsePRUrl prUrl = Throw e
  \/ (exists ref w',
        parsePRUrl prUrl = Ok ref /\ dryRun options = false
        /\ checkoutPRBranch (prNumber ref) (repo_dir options cwd) w
           = (Throw e, w'))
  \/ (exists ref w1 w2,
        parsePRUrl prUrl = Ok ref
        /\ after_checkout checkoutPRBranch options ref cwd w = Some w1
        /\ fetchPRComments (owner ref) (repo ref) (prNumber ref) w1
           = (Throw e, w2))
  \/ (exists ref w1 w2 w3 w4 before c after,
        parsePRUrl prUrl = Ok ref /\ dryRun options = false
        /\ after_checkout checkoutPRBranch options ref cwd w = Some w1
        /\ fetchPRComments (owner ref) (repo ref) (prNumber ref) w1
           = (Ok (before ++ c :: after)%list, w2)
        /\ after_processing processCommentWithClaude before w2 = Some w3
        /\ processCommentWithClaude c w3 = (Throw e, w4)) ->
  let r := run checkoutPRBranch fetchPRComments processCommentWithClaude
             prUrl options cwd w in
  exists tr,
    events r
    = (tr ++ [ConsoleError ["Error:"; error_text e]; ProcessExit 1])%list
    /\ Forall (fun ev => is_exit ev = false) tr
    /\ exitCode r = 1.
Proof.
  intros H r.
  assert (Hthrow : exists st,
             action_body checkoutPRBranch fetchPRComments
               processCommentWithClaude prUrl options cwd
               {| world := w; trace := [] |} = (Throw e, st)).
  { destruct H as [H | [H | [H | H]]].
    - eexists. now apply body_parse_Throw.
    - destruct H as (ref & w' & Hparse & Hdry & Hc).
      eexists. eapply body_checkout_Throw; eassumption.
    - destruct H as (ref & w1 & w2 & Hparse & Hco & Hf).
      eexists. eapply body_fetch_Throw; eassumption.
    - destruct H as (ref & w1 & w2 & w3 & w4 & before & c & after
                     & Hparse & Hdry & Hco & Hf & Hpre & Hc).
      pose proof (body_fetch_Ok checkoutPRBranch fetchPRComments
                    processCommentWithClaude _ _ _ _ _ _ _ _ Hparse Hco Hf)
        as Hbody.
      match type of Hbody with
      | _ = bind _ _ {| world := _; trace := ?t |} =>
          destruct (for_of_stops_at_failure processCommentWithClaude options
                      Hdry before c after w2 w3 w4 e t Hpre Hc)
            as (tr' & Hloop & _)
      end.
      unfold bind in Hbody at 1. rewrite Hloop in Hbody. eauto. }
  destruct Hthrow as [st Hbody].
  pose proof (action_body_no_exit checkoutPRBranch fetchPRComments
                processCommentWithClaude prUrl options cwd w) as Hno.
  rewrite Hbody in Hno. subst r.
  rewrite (run_Throw _ _ _ _ _ _ _ _ _ Hbody).
  exists (trace st). auto.
Qed.

Lemma every_failure_prints_and_exits_1_witness :
  exists tr,
    events (run Demo.checkout Demo.fetch Demo.agent Demo.other_host_url
              (Demo.options false) "/repo" Demo.clean)
    = (tr ++ [ConsoleError
                ["Error:"; invalid_url_message Demo.other_host_url];
              ProcessExit 1])%list
    /\ Forall (fun ev => is_exit ev = false) tr
    /\ exitCode (run Demo.checkout Demo.fetch Demo.agent Demo.other_host_url
                   (Demo.options false) "/repo" Demo.clean) = 1.
Proof.
  apply (every_failure_prints_and_exits_1 Demo.checkout Demo.fetch Demo.agent
           Demo.other_host_url (Demo.options false) "/repo" Demo.clean
           (JsError (invalid_url_message Demo.other_host_url))).
  left. reflexivity.
Defined.

(* ================================================================== *)
(** * What the orchestrator makes of the agent's result                 *)
(* ================================================================== *)

Section ReportedResults.

Context {World : Type}.
Variable checkoutPRBranch : number -> string -> World -> Result unit * World.
Variable fetchPRComments :
  string -> string -> number -> World -> Result (list PRComment) * World.
Variable processCommentWithClaude :
  PRComment -> World -> Result CommentProcessResult * World.

Local Notation "'body_'" :=
  (action_body checkoutPRBranch fetchPRComments processCommentWithClaude).
Local Notation "'run_'" :=
  (run checkoutPRBranch fetchPRComments processCommentWithClaude).
Local Notation "'one_'" := (process_one processCommentWithClaude).





End ReportedResults.




(** C6, as amended.  The [fetchPRComments] of the sources returns no
    sequence of comments, in any order: for every pull request it throws
    and leaves the world as it found it, so that fetching again fails the
    same way.  A run with it, once the URL is parsed and the checkout, if
    any, is made, ends at the fetch: the error is printed, no comment is
    listed or handed to the agent, and the code is 1. *)
Theorem fetchPRComments_returns_no_sequence
    {World : Type}
    (checkoutPRBranch : number -> string -> World -> Result unit * World)
    (processCommentWithClaude :
       PRComment -> World -> Result CommentProcessResult * World)
    (prUrl : string) (options : Options) (cwd : string)
    (w w1 : World) (ref : ParsedPRUrl) :
  parsePRUrl prUrl = Ok ref ->
  after_checkout checkoutPRBranch options ref cwd w = Some w1 ->
  (forall (o r : string) (n : number) (w0 : World),
      GitHub.fetchPRComments o r n w0
      = (Throw (JsError "Not implemented"), w0)
      /\ GitHub.fetchPRComments o r n (snd (GitHub.fetchPRComments o r n w0))
         = GitHub.fetchPRComments o r n w0)
  /\ run checkoutPRBranch GitHub.fetchPRComments processCommentWithClaude
       prUrl options cwd w
     = {| final := w1;
          events :=
            (events_before_fetch prUrl options cwd ref
             ++ [ CallFetch (owner ref) (repo ref) (prNumber ref);
                  ConsoleError ["Error:"; "Not implemented"];
                  ProcessExit 1 ])%list;
          exitCode := 1 |}
  /\ processed
       (events (run checkoutPRBranch GitHub.fetchPRComments
                  processCommentWithClaude prUrl options cwd w)) = [].
Proof.
  intros Hparse Hco. split; [intros o r n w0; split; reflexivity|].
  rewrite (run_Throw _ _ _ _ _ _ _ _ _
             (body_fetch_Throw checkoutPRBranch GitHub.fetchPRComments
                processCommentWithClaude prUrl options cwd w w1 w1 ref
                (JsError "Not implemented") Hparse Hco eq_refl)).
  cbn [events error_text world trace]. rewrite <- ?app_assoc.
  split; [reflexivity|].
  now rewrite events_before_fetch_processed.
Qed.

Lemma fetchPRComments_returns_no_sequence_witness :
  (forall (o r : string) (n : number) (w0 : Demo.Repo),
      GitHub.fetchPRComments o r n w0
      = (Throw (JsError "Not implemented"), w0)
      /\ GitHub.fetchPRComments o r n (snd (GitHub.fetchPRComments o r n w0))
         = GitHub.fetchPRComments o r n w0)
  /\ run Demo.checkout GitHub.fetchPRComments Demo.agent Demo.url
       (Demo.options false) "/repo" Demo.clean
     = {| final := {| Demo.head := "pr"; Demo.dirty := [];
                      Demo.remote := ["c0"] |};
          events :=
            (events_before_fetch Demo.url (Demo.options false) "/repo"
               {| owner := "owner"; repo := "repo"; prNumber := Fin 12 |}
             ++ [ CallFetch "owner" "repo" (Fin 12);
                  ConsoleError ["Error:"; "Not implemented"];
                  ProcessExit 1 ])%list;
          exitCode := 1 |}
  /\ processed
       (events (run Demo.checkout GitHub.fetchPRComments Demo.agent Demo.url
                  (Demo.options false) "/repo" Demo.clean)) = [].
Proof.
  apply (fetchPRComments_returns_no_sequence Demo.checkout Demo.agent
           Demo.url (Demo.options false) "/repo" Demo.clean
           {| Demo.head := "pr"; Demo.dirty := []; Demo.remote := ["c0"] |}
           {| owner := "owner"; repo := "repo"; prNumber := Fin 12 |});
    reflexivity.
Defined.

(** C6, the claim as written fails: for the pull request of [Demo.url] the
    fetch of the sources returns no comments, grouped or not.  It throws,
    and a dry run, which calls it first of the three imports, ends there
    with code 1. *)
Lemma fetch_of_a_pull_request_throws :
  GitHub.fetchPRComments "owner" "repo" (Fin 12) Demo.clean
  = (Throw (JsError "Not implemented"), Demo.clean)
  /\ run Demo.checkout GitHub.fetchPRComments Demo.agent Demo.url
       (Demo.options true) "/repo" Demo.clean
     = {| final := Demo.clean;
          events :=
            [ ConsoleLog [Str "Processing PR: "; Str Demo.url];
              ConsoleLog [Str "Repository directory: "; Str "/repo"];
              ConsoleLog [Str "Parsed: "; Str "owner"; Str "/"; Str "repo";
                          Str "#"; Num (Fin 12)];
              CallFetch "owner" "repo" (Fin 12);
              ConsoleError ["Error:"; "Not implemented"];
              ProcessExit 1 ];
          exitCode := 1 |}.
Proof. split; reflexivity. Qed.

(** The placeholders of the sources, for the record: each throws for every
    argument and leaves the world as it found it. *)
Lemma imports_are_not_implemented {World : Type} (w : World)
    (n : number) (dir o r : string) (c : PRComment) :
  GitHub.checkoutPRBranch n dir w = (Throw (JsError "Not implemented"), w)
  /\ GitHub.fetchPRComments o r n w = (Throw (JsError "Not implemented"), w)
  /\ Claude.processCommentWithClaude c w
     = (Throw (JsError "Not implemented"), w).
Proof. repeat split. Qed.

(* ================================================================== *)
(** * More of [parsePRUrl]                                              *)
(* ================================================================== *)

Section ParserExtras.

(** ** What the result depends on *)

Lemma toNumber_positive (n : Z) :
  0 < n -> toNumber n = PosInf \/ exists z, toNumber n = Fin z /\ 0 < z.
Proof.
  intros Hn. unfold toNumber. rewrite (Z.abs_eq n) by lia.
  pose proof (round53_pos n Hn) as Hm.
  destruct (2 ^ 1024 <=? round53 n)%Z.
  - destruct (Z.ltb_spec n 0); [lia | now left].
  - right. exists (round53 n). rewrite (Z.sgn_pos n) by lia.
    now rewrite Z.mul_1_l.
Qed.

Lemma round53_overflow (n : Z) : 2 ^ 1024 <= n -> 2 ^ 1024 <= round53 n.
Proof.
  intros Hn. assert (Hpos : 0 < n) by (assert (0 < 2 ^ 1024) by lia; lia).
  assert (Hlog : 1024 <= Z.log2 n) by (apply Z.log2_le_pow2; lia).
  unfold round53.
  destruct (Z.leb_spec (Z.log2 n - 52) 0) as [He | He]; [lia|].
  set (e := Z.log2 n - 52) in *.
  assert (Hq : 2 ^ 52 <= Z.shiftr n e).
  { rewrite Z.shiftr_div_pow2 by lia.
    apply Z.div_le_lower_bound; [apply Z.pow_pos_nonneg; lia|].
    rewrite <- Z.pow_add_r by lia.
    replace (e + 52) with (Z.log2 n) by lia.
    apply Z.log2_spec. assumption. }
  rewrite Z.shiftl_mul_pow2 by lia.
  transitivity (2 ^ 52 * 2 ^ e).
  - rewrite <- Z.pow_add_r by lia. apply Z.pow_le_mono_r; lia.
  - apply Z.mul_le_mono_nonneg_r; [apply Z.pow_nonneg; lia|].
    destruct (_ || _); lia.
Qed.

Lemma digit_value_zero (c : ascii) :
  is_digit c = true -> (digit_value c = 0 <-> is_zero c = true).
Proof.
  intros _. unfold digit_value, is_zero. split.
  - intros H. assert (HN : N_of_ascii c = 48%N) by lia.
    apply Ascii.eqb_eq. rewrite <- (ascii_N_embedding c), HN. reflexivity.
  - intros H. apply Ascii.eqb_eq in H. now subst c.
Qed.

Lemma digits_value_zero (s : string) : forall acc,
  all_chars is_digit s = true -> 0 <= acc ->
  (digits_value acc s = 0 <-> acc = 0 /\ all_chars is_zero s = true).
Proof.
  induction s as [|c s IH]; simpl; intros acc H Hacc; [tauto|].
  apply andb_true_iff in H as [Hc Hs].
  pose proof (digit_value_range c Hc) as Hr.
  rewrite (IH (acc * 10 + digit_value c) Hs) by lia.
  rewrite andb_true_iff, <- (digit_value_zero c Hc).
  split; intros H; repeat split; try tauto; lia.
Qed.


(** ** Decimal numerals *)

Lemma string_of_uint_digits (d : Decimal.uint) :
  all_chars is_digit (NilEmpty.string_of_uint d) = true.
Proof. induction d; simpl; auto. Qed.

Lemma digits_value_of_uint_acc (d : Decimal.uint) : forall acc : positive,
  digits_value (Zpos acc) (NilEmpty.string_of_uint d)
  = Zpos (Pos.of_uint_acc d acc).
Proof.
  induction d; intros acc;
    cbn [NilEmpty.string_of_uint digits_value Pos.of_uint_acc];
    try reflexivity;
    rewrite <- IHd; f_equal; unfold digit_value;
    cbn [N_of_ascii N_of_digits]; lia.
Qed.

Lemma digits_value_of_uint (d : Decimal.uint) :
  digits_value 0 (NilEmpty.string_of_uint d) = Z.of_N (Pos.of_uint d).
Proof.
  induction d; simpl; try reflexivity; try exact IHd;
    match goal with
    | |- _ = Z.pos (Pos.of_uint_acc d ?k) =>
        exact (digits_value_of_uint_acc d k)
    end.
Qed.

(** The numeral of a positive integer is a string of digits that denotes
    it. *)
Lemma decimal_positive (n : Z) :
  0 < n -> digit_string (decimal n) /\ pr_number (decimal n) = n.
Proof.
  intros Hn. destruct n as [|p|p]; try lia.
  unfold decimal, pr_number. simpl.
  pose proof (DecimalPos.Unsigned.to_uint_nonnil p) as Hnil.
  assert (E : NilZero.string_of_uint (Pos.to_uint p)
              = NilEmpty.string_of_uint (Pos.to_uint p)).
  { unfold NilZero.string_of_uint. now destruct (Pos.to_uint p). }
  rewrite E. repeat split.
  - destruct (Pos.to_uint p); simpl; congruence.
  - apply string_of_uint_digits.
  - rewrite digits_value_of_uint, DecimalPos.Unsigned.of_to. reflexivity.
Qed.

(** ** Pieces of a URL *)

Lemma all_chars_append (p : ascii -> bool) (a b : string) :
  all_chars p (a ++ b) = all_chars p a && all_chars p b.
Proof.
  induction a as [|x a IH]; simpl; [reflexivity|].
  rewrite IH. now rewrite andb_assoc.
Qed.

Lemma split_on_nonempty (sep : ascii) (s : string) : split_on sep s <> [].
Proof.
  destruct s as [|c s]; simpl; [discriminate|].
  destruct (Ascii.eqb c sep); [discriminate|].
  destruct (split_on sep s); discriminate.
Qed.

Lemma split_on_single_empty (sep : ascii) (s : string) :
  split_on sep s = [""] -> s = "".
Proof.
  destruct s as [|c s]; simpl; [reflexivity|].
  destruct (Ascii.eqb c sep).
  - intros [= H]. now destruct (split_on_nonempty sep s).
  - destruct (split_on sep s); discriminate.
Qed.

Lemma split_on_prefix (a b : string) :
  all_chars not_slash a = true ->
  exists h t, split_on "/" b = h :: t
              /\ split_on "/" (a ++ b) = (a ++ h) :: t.
Proof.
  intros Ha. destruct (split_on "/" b) as [|h t] eqn:E;
    [now destruct (split_on_nonempty "/" b)|].
  exists h, t. split; [reflexivity|].
  induction a as [|c a IH]; simpl; [exact E|].
  simpl in Ha. apply andb_true_iff in Ha as [Hc Ha].
  unfold not_slash in Hc. apply negb_true_iff in Hc. rewrite Hc.
  now rewrite (IH Ha).
Qed.

(** The pieces of a string that starts as a URL of the grammar does, up to
    and with [/pull/]. *)
Lemma split_on_url_prefix (scheme www o r rest : string) :
  scheme = "http" \/ scheme = "https" ->
  www = "" \/ www = "www." ->
  all_chars not_slash o = true -> all_chars not_slash r = true ->
  split_on "/" (scheme ++ "://" ++ www ++ "github.com/" ++ o ++ "/" ++ r
                  ++ "/pull/" ++ rest)
  = (scheme ++ ":") :: "" :: (www ++ "github.com") :: o :: r :: "pull"
      :: split_on "/" rest.
Proof.
  intros Hscheme Hwww Ho Hr.
  assert (Htail : split_on "/" (o ++ "/" ++ r ++ "/pull/" ++ rest)
                  = o :: r :: "pull" :: split_on "/" rest).
  { change (o ++ "/" ++ r ++ "/pull/" ++ rest)
      with (o ++ String "/" (r ++ String "/" ("pull" ++ String "/" rest))).
    rewrite (split_on_segment o) by assumption.
    rewrite (split_on_segment r) by assumption.
    now rewrite (split_on_segment "pull") by reflexivity. }
  destruct Hscheme as [-> | ->], Hwww as [-> | ->];
    match goal with
    | |- context [split_on _ (?s ++ "://" ++ ?w ++ "github.com/" ++ ?t)] =>
        change (s ++ "://" ++ w ++ "github.com/" ++ t)
          with ((s ++ ":") ++ String "/" ("" ++ String "/"
                  ((w ++ "github.com") ++ String "/" t)));
        rewrite (split_on_segment (s ++ ":")) by reflexivity;
        rewrite (split_on_segment "") by reflexivity;
        rewrite (split_on_segment (w ++ "github.com")) by reflexivity;
        now rewrite Htail
    end.
Qed.

(** What comes after [/pull/] in a URL of the grammar is its digits, in one
    piece, and an empty piece if the URL ends with [/]. *)
Lemma split_on_digits (d slash : string) :
  digit_string d -> slash = "" \/ slash = "/" ->
  exists tail, split_on "/" (d ++ slash) = d :: tail
               /\ (tail = [] \/ tail = [""]).
Proof.
  intros [_ Hd] Hslash. apply all_digits_not_slash in Hd.
  destruct Hslash as [-> | ->].
  - exists []. rewrite append_empty_r. split; [now apply split_on_last | auto].
  - exists [""]. split; [now rewrite split_on_segment | auto].
Qed.

End ParserExtras.

(* ================================================================== *)
(** * More of [parsePRUrl]: the properties                              *)
(* ================================================================== *)


Lemma url_parts :
  pr_url Demo.url "owner" "repo" "12"
  /\ pr_url Demo.long_url "owner" "repo" "0012".
Proof.
  split.
  - apply (pr_url_intro "https" "" "owner" "repo" "12" "");
      try (split; [discriminate | reflexivity]); auto.
  - apply (pr_url_intro "http" "www." "owner" "repo" "0012" "/");
      try (split; [discriminate | reflexivity]); auto.
Qed.


(** X2.  A reference [parsePRUrl] returns has an owner and a repository
    that are not empty and hold no [/], and a number that is positive: an
    integer above zero or, past the largest double, [Infinity]; it is never
    [NaN], zero or negative. *)
Theorem parsePRUrl_result_is_well_formed (u : string) (ref : ParsedPRUrl) :
  parsePRUrl u = Ok ref ->
  segment (owner ref) /\ segment (repo ref)
  /\ (prNumber ref = PosInf \/ exists z, prNumber ref = Fin z /\ 0 < z).
Proof.
  intros Hparse.
  destruct (pr_url_dec u) as [(o & r & d & H) | H].
  - rewrite (parsePRUrl_pr_url _ _ _ _ H) in Hparse.
    destruct (Z.ltb_spec 0 (pr_number d)) as [Hpos | _]; [|discriminate].
    injection Hparse as <-. cbn [owner repo prNumber].
    destruct H as [scheme www o r d slash _ _ _ Ho Hr _].
    repeat split; try apply Ho; try apply Hr.
    now apply toNumber_positive.
  - rewrite (parsePRUrl_no_match _ H) in Hparse. discriminate.
Qed.

Lemma parsePRUrl_result_is_well_formed_witness :
  segment "owner" /\ segment "repo"
  /\ (Fin 12 = PosInf \/ exists z, Fin 12 = Fin z /\ 0 < z).
Proof.
  apply (parsePRUrl_result_is_well_formed Demo.long_url
           {| owner := "owner"; repo := "repo"; prNumber := Fin 12 |}).
  reflexivity.
Defined.

(** X3.  A number too large for a double is not refused: a URL of the
    grammar whose number is [2^1024] or more parses, and the number of the
    reference is [Infinity]. *)
Theorem parsePRUrl_accepts_overflowing_number (u o r d : string) :
  pr_url u o r d -> 2 ^ 1024 <= pr_number d ->
  parsePRUrl u = Ok {| owner := o; repo := r; prNumber := PosInf |}.
Proof.
  intros H Hbig.
  assert (Hpos : 0 < pr_number d)
    by (assert (0 < 2 ^ 1024) by lia; lia).
  rewrite (parsePRUrl_pr_url _ _ _ _ H).
  apply Z.ltb_lt in Hpos as Hltb. rewrite Hltb.
  unfold toNumber. rewrite (Z.abs_eq (pr_number d)) by lia.
  pose proof (round53_overflow _ Hbig) as Hround.
  apply Z.leb_le in Hround. rewrite Hround.
  destruct (Z.ltb_spec (pr_number d) 0); [lia | reflexivity].
Qed.

Lemma parsePRUrl_accepts_overflowing_number_witness :
  parsePRUrl Demo.huge_url
  = Ok {| owner := "o"; repo := "r"; prNumber := PosInf |}.
Proof.
  apply (parsePRUrl_accepts_overflowing_number Demo.huge_url "o" "r"
           Demo.huge_digits).
  - apply (pr_url_intro "https" "" "o" "r" Demo.huge_digits "");
      try (split; [discriminate | reflexivity]); auto.
  - vm_compute. discriminate.
Defined.

(** X4.  Nothing may follow the number but one [/]: a URL of the grammar
    followed by any text that does not start with a digit and is not just
    [/] (a query, an anchor, a tab such as [/files]) is refused as an
    invalid URL. *)
Theorem parsePRUrl_rejects_trailing_text (u o r d : string) (c : ascii)
    (t : string) :
  pr_url u o r d -> is_digit c = false -> String c t <> "/" ->
  parsePRUrl (u ++ String c t)
  = Throw (JsError (invalid_url_message (u ++ String c t))).
Proof.
  intros H Hc Hnot. apply parsePRUrl_no_match. intros o' r' d' H'.
  destruct H as [scheme www o r d slash Hscheme Hwww Hslash [_ Ho] [_ Hr] Hd].
  remember (url_of_parts scheme www o r d slash ++ String c t) as v eqn:Ev.
  destruct H' as [scheme' www' o' r' d' slash' Hscheme' Hwww' Hslash'
                    [_ Ho'] [_ Hr'] Hd'].
  apply (f_equal (split_on "/")) in Ev.
  unfold url_of_parts in Ev.
  rewrite !append_assoc in Ev.
  rewrite (split_on_url_prefix scheme' www' o' r' (d' ++ slash')) in Ev
    by assumption.
  rewrite (split_on_url_prefix scheme www o r (d ++ slash ++ String c t)) in Ev
    by assumption.
  destruct (split_on_digits d' slash' Hd' Hslash') as (tail & Etail & Htail).
  rewrite Etail in Ev. injection Ev as _ _ _ _ Ev.
  destruct Hd as [_ Hdigits]. destruct Hd' as [_ Hdigits'].
  pose proof (all_digits_not_slash _ Hdigits) as Hns.
  destruct Hslash as [-> | ->].
  - change ("" ++ String c t) with (String c t) in Ev.
    destruct (Ascii.eqb_spec c "/"%char) as [-> | Hneq].
    + rewrite (split_on_segment d t Hns) in Ev. injection Ev as _ Ev.
      destruct Htail as [-> | ->].
      * now destruct (split_on_nonempty "/"%char t).
      * symmetry in Ev. apply split_on_single_empty in Ev. now subst t.
    + change (d ++ String c t) with (d ++ (String c "" ++ t)) in Ev.
      rewrite <- append_assoc in Ev.
      destruct (split_on_prefix (d ++ String c "") t) as (h & tl & _ & E).
      { rewrite all_chars_append, Hns. simpl. unfold not_slash.
        apply Ascii.eqb_neq in Hneq. now rewrite Hneq. }
      rewrite E in Ev. injection Ev as Ev _. subst d'.
      rewrite !all_chars_append in Hdigits'. simpl in Hdigits'.
      rewrite Hc in Hdigits'.
      rewrite andb_false_r in Hdigits'. discriminate.
  - remember (String c t) as s eqn:Es.
    change (d ++ "/" ++ s) with (d ++ String "/" s) in Ev.
    rewrite (split_on_segment d _ Hns) in Ev. injection Ev as _ Ev.
    destruct Htail as [-> | ->].
    + now destruct (split_on_nonempty "/"%char s).
    + symmetry in Ev. apply split_on_single_empty in Ev. congruence.
Qed.

Lemma parsePRUrl_rejects_trailing_text_witness :
  parsePRUrl "https://github.com/owner/repo/pull/12?diff=split"
  = Throw (JsError (invalid_url_message
                      "https://github.com/owner/repo/pull/12?diff=split")).
Proof.
  apply (parsePRUrl_rejects_trailing_text Demo.url "owner" "repo" "12"
           "?"%char "diff=split" (proj1 url_parts)).
  - reflexivity.
  - discriminate.
Defined.

(** X5.  The error about the number of the pull request is thrown for the
    URLs of the grammar whose digits are all [0], and for no other string:
    the test for [NaN] that goes with it never decides. *)
Theorem invalid_number_error_iff_zero (u : string) :
  parsePRUrl u = Throw (JsError (invalid_number_message u))
  <-> exists o r d, pr_url u o r d /\ all_chars is_zero d = true.
Proof.
  split.
  - intros Hparse. destruct (pr_url_dec u) as [(o & r & d & H) | H].
    + exists o, r, d. split; [exact H|].
      rewrite (parsePRUrl_pr_url _ _ _ _ H) in Hparse.
      assert (Hd : digit_string d) by (now destruct H).
      pose proof (pr_number_nonneg _ Hd) as Hge.
      destruct (Z.ltb_spec 0 (pr_number d)) as [_ | Hle]; [discriminate|].
      destruct Hd as [_ Hd].
      apply (digits_value_zero d 0 Hd (Z.le_refl 0)).
      unfold pr_number in *. lia.
    + rewrite (parsePRUrl_no_match _ H) in Hparse.
      unfold invalid_url_message, invalid_number_message in Hparse.
      simpl in Hparse. discriminate.
  - intros (o & r & d & H & Hzero).
    rewrite (parsePRUrl_pr_url _ _ _ _ H).
    assert (Hd : digit_string d) by (now destruct H).
    destruct Hd as [_ Hd].
    assert (E : pr_number d = 0).
    { apply (digits_value_zero d 0 Hd (Z.le_refl 0)). auto. }
    now rewrite E.
Qed.

(** X6.  Every reference with an owner and a repository that are segments
    and a number from 1 to [Number.MAX_SAFE_INTEGER] is the result of
    parsing a URL: the one [https://github.com/owner/repo/pull/number],
    the number in decimal, parses back to it. *)
Theorem parsePRUrl_of_canonical_url (o r : string) (n : Z) :
  segment o -> segment r -> 0 < n <= MAX_SAFE_INTEGER ->
  parsePRUrl (canonical_url o r (decimal n))
  = Ok {| owner := o; repo := r; prNumber := Fin n |}.
Proof.
  intros Ho Hr [Hpos Hsafe].
  destruct (decimal_positive n Hpos) as [Hd En].
  assert (H : pr_url (canonical_url o r (decimal n)) o r (decimal n)).
  { replace (canonical_url o r (decimal n))
      with (url_of_parts "https" "" o r (decimal n) "")
      by (unfold url_of_parts, canonical_url; now rewrite append_empty_r).
    constructor; auto. }
  rewrite (parsePRUrl_pr_url _ _ _ _ H), En.
  apply Z.ltb_lt in Hpos as Hltb. rewrite Hltb.
  now rewrite toNumber_safe by lia.
Qed.

Lemma parsePRUrl_of_canonical_url_witness :
  parsePRUrl "https://github.com/pytorch/pytorch/pull/172511"
  = Ok {| owner := "pytorch"; repo := "pytorch"; prNumber := Fin 172511 |}.
Proof.
  apply (parsePRUrl_of_canonical_url "pytorch" "pytorch" 172511).
  - split; [discriminate | reflexivity].
  - split; [discriminate | reflexivity].
  - unfold MAX_SAFE_INTEGER. split; [reflexivity | vm_compute; discriminate].
Defined.

(** X7.  Up to [Number.MAX_SAFE_INTEGER] two URLs that parse to the same
    reference name the same pull request: they have the same owner, the
    same repository and numbers of the same value, and differ at most in
    the way they are written. *)
Theorem parsePRUrl_tells_pull_requests_apart (u u' o r d o' r' d' : string) :
  pr_url u o r d -> pr_url u' o' r' d' ->
  0 < pr_number d <= MAX_SAFE_INTEGER ->
  pr_number d' <= MAX_SAFE_INTEGER ->
  parsePRUrl u = parsePRUrl u' ->
  o = o' /\ r = r' /\ pr_number d = pr_number d'.
Proof.
  intros H H' [Hpos Hsafe] Hsafe' E.
  rewrite (parsePRUrl_pr_url _ _ _ _ H), (parsePRUrl_pr_url _ _ _ _ H') in E.
  assert (Hd' : digit_string d') by (now destruct H').
  pose proof (pr_number_nonneg _ Hd') as Hge'.
  rewrite !toNumber_safe in E by lia.
  apply Z.ltb_lt in Hpos as Hltb. rewrite Hltb in E.
  destruct (0 <? pr_number d')%Z; [|discriminate].
  now injection E as -> -> ->.
Qed.

Lemma parsePRUrl_tells_pull_requests_apart_witness :
  "owner" = "owner" /\ "repo" = "repo" /\ pr_number "12" = pr_number "0012".
Proof.
  apply (parsePRUrl_tells_pull_requests_apart Demo.url Demo.long_url
           "owner" "repo" "12" "owner" "repo" "0012"
           (proj1 url_parts) (proj2 url_parts)).
  - unfold MAX_SAFE_INTEGER. split; [reflexivity | vm_compute; discriminate].
  - unfold MAX_SAFE_INTEGER. vm_compute. discriminate.
  - reflexivity.
Defined.

(* ================================================================== *)
(** * More of the orchestrator                                          *)
(* ================================================================== *)

Section OrchestratorExtras.

Context {World : Type}.
Variable checkoutPRBranch : number -> string -> World -> Result unit * World.
Variable fetchPRComments :
  string -> string -> number -> World -> Result (list PRComment) * World.
Variable processCommentWithClaude :
  PRComment -> World -> Result CommentProcessResult * World.

Local Notation "'body_'" :=
  (action_body checkoutPRBranch fetchPRComments processCommentWithClaude).
Local Notation "'run_'" :=
  (run checkoutPRBranch fetchPRComments processCommentWithClaude).
Local Notation "'one_'" := (process_one processCommentWithClaude).

Ltac respects_chain refl trans :=
  repeat first
    [ apply (respects_bind _ _ trans); [ | intros ? ]
    | apply (respects_for_of _ _ refl trans); intros ?
    | apply (respects_ret _ _ refl)
    | apply (respects_lift _ _ refl)
    | apply (respects_emit _ _ refl) ].

(** ** The loop in a dry run *)

Lemma for_of_dry_run (options : Options) :
  dryRun options = true ->
  forall cs w tr,
    for_of cs (one_ options) {| world := w; trace := tr |}
    = (Ok tt, {| world := w; trace := tr ++ flat_map comment_logs cs |}).
Proof.
  intros Hdry. induction cs as [|c cs IH]; intros w tr; simpl.
  - now rewrite app_nil_r.
  - unfold bind at 1. unfold process_one at 1. rewrite Hdry.
    unfold bind, console_log, emit, ret. simpl.
    rewrite IH. now rewrite <- !app_assoc.
Qed.

(** ** Where the loop stops *)

Lemma after_processing_None (cs : list PRComment) : forall w,
  after_processing processCommentWithClaude cs w = None ->
  exists before c after w1 w2 e,
    cs = (before ++ c :: after)%list
    /\ after_processing processCommentWithClaude before w = Some w1
    /\ processCommentWithClaude c w1 = (Throw e, w2).
Proof.
  induction cs as [|c cs IH]; simpl; intros w H; [discriminate|].
  destruct (processCommentWithClaude c w) as [[res | e] w'] eqn:E.
  - destruct (IH w' H) as (before & c' & after & w1 & w2 & e & -> & Hb & Hc).
    exists (c :: before), c', after, w1, w2, e. simpl. rewrite E. auto.
  - exists [], c, cs, w, w', e. auto.
Qed.

(** ** The run after a fetch that succeeds *)

Lemma body_all_processed (prUrl : string) (options : Options) (cwd : string)
    (w w1 w2 w3 : World) (ref : ParsedPRUrl) (cs : list PRComment) :
  dryRun options = false ->
  parsePRUrl prUrl = Ok ref ->
  after_checkout checkoutPRBranch options ref cwd w = Some w1 ->
  fetchPRComments (owner ref) (repo ref) (prNumber ref) w1 = (Ok cs, w2) ->
  after_processing processCommentWithClaude cs w2 = Some w3 ->
  exists tr,
    body_ prUrl options cwd {| world := w; trace := [] |}
    = (Ok tt, {| world := w3; trace := tr ++ [done_log] |})
    /\ processed tr = cs.
Proof.
  intros Hdry Hparse Hco Hf Hall.
  pose proof (body_fetch_Ok checkoutPRBranch fetchPRComments
                processCommentWithClaude _ _ _ _ _ _ _ _ Hparse Hco Hf)
    as Hbody.
  match type of Hbody with
  | _ = bind _ _ {| world := _; trace := ?t |} =>
      destruct (for_of_processes_all processCommentWithClaude options Hdry
                  cs w2 w3 t Hall) as (tr' & Hloop & Hp)
  end.
  unfold bind in Hbody at 1. rewrite Hloop in Hbody.
  unfold console_log, emit in Hbody. cbn [world trace] in Hbody.
  eexists. split; [exact Hbody|].
  rewrite <- !app_assoc, events_before_fetch_processed.
  cbn [app processed]. exact Hp.
Qed.

Lemma run_stops_at_failure (prUrl : string) (options : Options) (cwd : string)
    (w w1 w2 w3 w4 : World) (ref : ParsedPRUrl)
    (before : list PRComment) (c : PRComment) (after : list PRComment)
    (e : exn) :
  dryRun options = false ->
  parsePRUrl prUrl = Ok ref ->
  after_checkout checkoutPRBranch options ref cwd w = Some w1 ->
  fetchPRComments (owner ref) (repo ref) (prNumber ref) w1
  = (Ok (before ++ c :: after)%list, w2) ->
  after_processing processCommentWithClaude before w2 = Some w3 ->
  processCommentWithClaude c w3 = (Throw e, w4) ->
  processed (events (run_ prUrl options cwd w)) = (before ++ [c])%list
  /\ exitCode (run_ prUrl options cwd w) = 1.
Proof.
  intros Hdry Hparse Hco Hf Hpre Hc.
  pose proof (body_fetch_Ok checkoutPRBranch fetchPRComments
                processCommentWithClaude _ _ _ _ _ _ _ _ Hparse Hco Hf)
    as Hbody.
  match type of Hbody with
  | _ = bind _ _ {| world := _; trace := ?t |} =>
      destruct (for_of_stops_at_failure processCommentWithClaude options Hdry
                  before c after w2 w3 w4 e t Hpre Hc) as (tr' & Hloop & Hp)
  end.
  unfold bind in Hbody at 1. rewrite Hloop in Hbody.
  rewrite (run_Throw _ _ _ _ _ _ _ _ _ Hbody). cbn [events exitCode trace].
  split; [|reflexivity].
  rewrite <- !app_assoc, events_before_fetch_processed.
  cbn [app processed]. rewrite processed_app, Hp. cbn [processed].
  now rewrite app_nil_r.
Qed.

(** ** How the [try] block ends *)

Lemma bind_Ok_inv {A B : Type} (m : M (World := World) A) (k : A -> M (World := World) B) (st st' : State (World := World))
    (b : B) :
  bind m k st = (Ok b, st') ->
  exists a st1, m st = (Ok a, st1) /\ k a st1 = (Ok b, st').
Proof.
  unfold bind. destruct (m st) as [[a | e] st1]; [eauto | discriminate].
Qed.

Lemma body_Ok_ends_with_done (prUrl : string) (options : Options)
    (cwd : string) (st0 st : State (World := World)) :
  body_ prUrl options cwd st0 = (Ok tt, st) ->
  exists tr, trace st = (tr ++ [done_log])%list.
Proof.
  unfold action_body. cbv zeta. intros H.
  repeat match type of H with
         | bind _ _ _ = (Ok _, _) =>
             apply bind_Ok_inv in H as (? & ? & _ & H); cbv beta in H
         end.
  unfold console_log, emit in H. injection H as <-. cbn [trace]. eauto.
Qed.

Lemma throws_within_respects (Q : Event -> Prop) {A : Type} (m : M (World := World) A) :
  respects Q (fun _ _ : World => True) m -> throws_within Q m.
Proof.
  intros H st e st' E. destruct (H st) as (tr & Htr & HQ & _).
  rewrite E in Htr. eauto.
Qed.

Lemma throws_within_emit (Q : Event -> Prop) (e : Event) :
  throws_within (World := World) Q (emit e).
Proof. intros st x st' H. discriminate. Qed.

Lemma throws_within_bind (Q : Event -> Prop) {A B : Type} (m : M (World := World) A)
    (k : A -> M (World := World) B) :
  respects Q (fun _ _ : World => True) m ->
  (forall a, throws_within Q (k a)) ->
  throws_within Q (bind m k).
Proof.
  intros Hm Hk st e st' E. unfold bind in E.
  destruct (Hm st) as (tr1 & Htr1 & HQ1 & _).
  destruct (m st) as [[a | x] st1]; cbn [snd] in Htr1.
  - destruct (Hk a st1 e st' E) as (tr2 & Htr2 & HQ2).
    exists (tr1 ++ tr2)%list. rewrite Htr2, Htr1, app_assoc.
    split; [reflexivity | now apply Forall_app].
  - injection E as <- <-. eauto.
Qed.

Lemma log_before_the_end (t : list piece) :
  ConsoleLog t <> done_log -> before_the_end (ConsoleLog t).
Proof. intros H. now repeat split. Qed.

Lemma process_one_before_the_end (options : Options) (c : PRComment) :
  respects before_the_end (fun _ _ : World => True) (one_ options c).
Proof.
  unfold process_one, console_log.
  destruct (dryRun options); simpl negb; cbv iota;
    respects_chain (fun _ : World => I)
      (fun (_ _ _ : World) (_ _ : True) => I);
    try (apply log_before_the_end; discriminate).
  - apply respects_call; [now repeat split | auto].
  - match goal with |- context [fixed ?r] => destruct (fixed r) end;
      apply respects_emit; auto; apply log_before_the_end; discriminate.
Qed.

(** When the [try] block throws, the last line has not been logged. *)
Lemma body_throws_before_the_end (prUrl : string) (options : Options)
    (cwd : string) :
  throws_within before_the_end (body_ prUrl options cwd).
Proof.
  unfold action_body, console_log. cbv zeta.
  repeat (apply throws_within_bind; [ | intros ? ]);
    try apply throws_within_emit;
    try (apply respects_emit; auto; apply log_before_the_end; discriminate).
  - apply respects_lift; auto.
  - destruct (dryRun options); simpl negb; cbv iota.
    + apply respects_ret; auto.
    + apply respects_bind; auto.
      * apply respects_call; [now repeat split | auto].
      * intros _. apply respects_emit; auto.
        apply log_before_the_end; discriminate.
  - apply respects_call; [now repeat split | auto].
  - apply respects_for_of; auto. intros c.
    apply process_one_before_the_end.
Qed.

End OrchestratorExtras.

(* ================================================================== *)
(** * More of the orchestrator: the properties                          *)
(* ================================================================== *)

(** X8.  A URL that is not valid ends the run before anything is called:
    after the two lines that say what is being processed, the error of
    [parsePRUrl] is printed and the run leaves with code 1; the checkout,
    the fetch and the agent are not called and the world is as it was. *)
Theorem invalid_url_fails_before_any_call
    {World : Type}
    (checkoutPRBranch : number -> string -> World -> Result unit * World)
    (fetchPRComments :
       string -> string -> number -> World -> Result (list PRComment) * World)
    (processCommentWithClaude :
       PRComment -> World -> Result CommentProcessResult * World)
    (prUrl : string) (options : Options) (cwd : string) (w : World) :
  ~ valid_pr_url prUrl ->
  exists e,
    invalid_url_error prUrl e
    /\ run checkoutPRBranch fetchPRComments processCommentWithClaude
         prUrl options cwd w
       = {| final := w;
            events :=
              [ ConsoleLog [Str "Processing PR: "; Str prUrl];
                ConsoleLog [Str "Repository directory: ";
                            Str (repo_dir options cwd)];
                ConsoleError ["Error:"; error_text e];
                ProcessExit 1 ];
            exitCode := 1 |}.
Proof.
  intros Hinv. destruct (invalid_pr_url_throws prUrl Hinv) as (e & He & Herr).
  exists e. split; [exact Herr|].
  now rewrite (run_Throw _ _ _ _ _ _ _ _ _
                 (body_parse_Throw checkoutPRBranch fetchPRComments
                    processCommentWithClaude prUrl options cwd w e He)).
Qed.

Lemma other_host_url_invalid : ~ valid_pr_url Demo.other_host_url.
Proof.
  intros (o & r & d & H & _). apply exec_pattern_complete in H.
  vm_compute in H. discriminate.
Qed.

Lemma invalid_url_fails_before_any_call_witness :
  exists e,
    invalid_url_error Demo.other_host_url e
    /\ run Demo.checkout Demo.fetch Demo.agent Demo.other_host_url
         (Demo.options false) "/repo" Demo.clean
       = {| final := Demo.clean;
            events :=
              [ ConsoleLog [Str "Processing PR: "; Str Demo.other_host_url];
                ConsoleLog [Str "Repository directory: "; Str "/repo"];
                ConsoleError ["Error:"; error_text e];
                ProcessExit 1 ];
            exitCode := 1 |}.
Proof.
  apply (invalid_url_fails_before_any_call Demo.checkout Demo.fetch
           Demo.agent Demo.other_host_url (Demo.options false) "/repo"
           Demo.clean other_host_url_invalid).
Defined.

(** X9.  A run that is not a dry run and in which nothing fails hands every
    fetched comment to the agent, once each and in the order of the fetch,
    prints the closing line last and ends with code 0, in the world the
    agent left after the last comment. *)
Theorem successful_run_processes_every_comment
    {World : Type}
    (checkoutPRBranch : number -> string -> World -> Result unit * World)
    (fetchPRComments :
       string -> string -> number -> World -> Result (list PRComment) * World)
    (processCommentWithClaude :
       PRComment -> World -> Result CommentProcessResult * World)
    (prUrl : string) (options : Options) (cwd : string)
    (w w1 w2 w3 : World) (ref : ParsedPRUrl) (cs : list PRComment) :
  dryRun options = false ->
  parsePRUrl prUrl = Ok ref ->
  after_checkout checkoutPRBranch options ref cwd w = Some w1 ->
  fetchPRComments (owner ref) (repo ref) (prNumber ref) w1 = (Ok cs, w2) ->
  after_processing processCommentWithClaude cs w2 = Some w3 ->
  let r := run checkoutPRBranch fetchPRComments processCommentWithClaude
             prUrl options cwd w in
  processed (events r) = cs
  /\ (exists tr, events r = (tr ++ [done_log])%list)
  /\ existsb is_console_error (events r) = false
  /\ exitCode r = 0
  /\ final r = w3.
Proof.
  intros Hdry Hparse Hco Hf Hall r.
  destruct (body_all_processed checkoutPRBranch fetchPRComments
              processCommentWithClaude prUrl options cwd w w1 w2 w3 ref cs
              Hdry Hparse Hco Hf Hall) as (tr & Hbody & Hp).
  destruct (action_body_respects checkoutPRBranch fetchPRComments
              processCommentWithClaude
              (fun e => is_console_error e = false) (fun _ _ => True)
              prUrl options cwd)
    with (st := {| world := w; trace := [] |}) as (tr0 & Htr0 & HQ & _);
    auto.
  rewrite Hbody in Htr0. cbn [snd trace app] in Htr0.
  subst r. rewrite (run_Ok _ _ _ _ _ _ _ _ Hbody).
  cbn [events exitCode final world trace].
  repeat split.
  - rewrite processed_app, Hp. cbn [processed]. now rewrite app_nil_r.
  - eauto.
  - rewrite Htr0. now apply existsb_all_false.
Qed.

Lemma successful_run_processes_every_comment_witness :
  processed (events (run Demo.checkout Demo.fetch Demo.agent Demo.url
                       (Demo.options false) "/repo" Demo.clean))
  = [Demo.first_comment; Demo.second_comment]
  /\ (exists tr,
        events (run Demo.checkout Demo.fetch Demo.agent Demo.url
                  (Demo.options false) "/repo" Demo.clean)
        = (tr ++ [done_log])%list)
  /\ existsb is_console_error
       (events (run Demo.checkout Demo.fetch Demo.agent Demo.url
                  (Demo.options false) "/repo" Demo.clean)) = false
  /\ exitCode (run Demo.checkout Demo.fetch Demo.agent Demo.url
                 (Demo.options false) "/repo" Demo.clean) = 0
  /\ final (run Demo.checkout Demo.fetch Demo.agent Demo.url
              (Demo.options false) "/repo" Demo.clean)
     = {| Demo.head := "c1"; Demo.dirty := []; Demo.remote := ["c0"] |}.
Proof.
  apply (successful_run_processes_every_comment Demo.checkout Demo.fetch
           Demo.agent Demo.url (Demo.options false) "/repo" Demo.clean
           {| Demo.head := "pr"; Demo.dirty := []; Demo.remote := ["c0"] |}
           {| Demo.head := "pr"; Demo.dirty := []; Demo.remote := ["c0"] |}
           {| Demo.head := "c1"; Demo.dirty := []; Demo.remote := ["c0"] |}
           {| owner := "owner"; repo := "repo"; prNumber := Fin 12 |}
           [Demo.first_comment; Demo.second_comment]);
    reflexivity.
Defined.

(** X10.  A dry run in which the fetch succeeds is a listing: after the
    lines of the start it calls the fetch, prints the number of comments
    found, then for each comment in the order of the fetch its author and
    the first 100 code units of its body followed by [...], then the
    closing line; it ends with code 0 in the world the fetch left. *)
Theorem dry_run_lists_comments
    {World : Type}
    (checkoutPRBranch : number -> string -> World -> Result unit * World)
    (fetchPRComments :
       string -> string -> number -> World -> Result (list PRComment) * World)
    (processCommentWithClaude :
       PRComment -> World -> Result CommentProcessResult * World)
    (prUrl : string) (options : Options) (cwd : string)
    (w w' : World) (ref : ParsedPRUrl) (cs : list PRComment) :
  dryRun options = true ->
  parsePRUrl prUrl = Ok ref ->
  fetchPRComments (owner ref) (repo ref) (prNumber ref) w = (Ok cs, w') ->
  run checkoutPRBranch fetchPRComments processCommentWithClaude
    prUrl options cwd w
  = {| final := w';
       events :=
         [ ConsoleLog [Str "Processing PR: "; Str prUrl];
           ConsoleLog [Str "Repository directory: ";
                       Str (repo_dir options cwd)];
           ConsoleLog [Str "Parsed: "; Str (owner ref); Str "/";
                       Str (repo ref); Str "#"; Num (prNumber ref)];
           CallFetch (owner ref) (repo ref) (prNumber ref);
           found_log cs ]
         ++ flat_map comment_logs cs ++ [done_log];
       exitCode := 0 |}.
Proof.
  intros Hdry Hparse Hf.
  assert (Hco : after_checkout checkoutPRBranch options ref cwd w = Some w)
    by (unfold after_checkout; now rewrite Hdry).
  pose proof (body_fetch_Ok checkoutPRBranch fetchPRComments
                processCommentWithClaude _ _ _ _ _ _ _ _ Hparse Hco Hf)
    as Hbody.
  unfold bind in Hbody at 1.
  rewrite (for_of_dry_run processCommentWithClaude options Hdry) in Hbody.
  unfold console_log, emit in Hbody. cbn [world trace] in Hbody.
  rewrite (run_Ok _ _ _ _ _ _ _ _ Hbody). cbn [world trace].
  unfold events_before_fetch. rewrite Hdry.
  cbn [app]. rewrite <- ?app_assoc. reflexivity.
Qed.

Lemma dry_run_lists_comments_witness :
  run Demo.checkout Demo.fetch Demo.agent Demo.url (Demo.options true)
    "/repo" Demo.dirty_repo
  = {| final := Demo.dirty_repo;
       events :=
         [ ConsoleLog [Str "Processing PR: "; Str Demo.url];
           ConsoleLog [Str "Repository directory: "; Str "/repo"];
           ConsoleLog [Str "Parsed: "; Str "owner"; Str "/"; Str "repo";
                       Str "#"; Num (Fin 12)];
           CallFetch "owner" "repo" (Fin 12);
           found_log [Demo.first_comment; Demo.second_comment] ]
         ++ flat_map comment_logs [Demo.first_comment; Demo.second_comment]
         ++ [done_log];
       exitCode := 0 |}.
Proof.
  apply (dry_run_lists_comments Demo.checkout Demo.fetch Demo.agent Demo.url
           (Demo.options true) "/repo" Demo.dirty_repo Demo.dirty_repo
           {| owner := "owner"; repo := "repo"; prNumber := Fin 12 |}
           [Demo.first_comment; Demo.second_comment]);
    reflexivity.
Defined.

(** X11.  Whatever the agent does, the comments handed to it in a run that
    is not a dry run are an initial part of the fetched sequence, in its
    order and once each; and the run ends with code 0 exactly when the
    agent handled all of them without throwing. *)
Theorem agent_sees_initial_part_of_comments
    {World : Type}
    (checkoutPRBranch : number -> string -> World -> Result unit * World)
    (fetchPRComments :
       string -> string -> number -> World -> Result (list PRComment) * World)
    (processCommentWithClaude :
       PRComment -> World -> Result CommentProcessResult * World)
    (prUrl : string) (options : Options) (cwd : string)
    (w w1 w2 : World) (ref : ParsedPRUrl) (cs : list PRComment) :
  dryRun options = false ->
  parsePRUrl prUrl = Ok ref ->
  after_checkout checkoutPRBranch options ref cwd w = Some w1 ->
  fetchPRComments (owner ref) (repo ref) (prNumber ref) w1 = (Ok cs, w2) ->
  let r := run checkoutPRBranch fetchPRComments processCommentWithClaude
             prUrl options cwd w in
  (exists n, processed (events r) = firstn n cs)
  /\ (exitCode r = 0
      <-> exists w3, after_processing processCommentWithClaude cs w2 = Some w3)
  /\ (exitCode r = 0 -> processed (events r) = cs).
Proof.
  intros Hdry Hparse Hco Hf r. subst r.
  destruct (after_processing processCommentWithClaude cs w2) as [w3|] eqn:Hall.
  - destruct (body_all_processed checkoutPRBranch fetchPRComments
                processCommentWithClaude prUrl options cwd w w1 w2 w3 ref cs
                Hdry Hparse Hco Hf Hall) as (tr & Hbody & Hp).
    rewrite (run_Ok _ _ _ _ _ _ _ _ Hbody).
    cbn [events exitCode world trace].
    assert (E : processed (tr ++ [done_log]) = cs).
    { rewrite processed_app, Hp. cbn [processed]. now rewrite app_nil_r. }
    rewrite E. repeat split; eauto.
    exists (List.length cs). now rewrite firstn_all.
  - destruct (after_processing_None processCommentWithClaude cs w2 Hall)
      as (before & c & after & w3 & w4 & e & -> & Hb & Hc).
    destruct (run_stops_at_failure checkoutPRBranch fetchPRComments
                processCommentWithClaude prUrl options cwd w w1 w2 w3 w4 ref
                before c after e Hdry Hparse Hco Hf Hb Hc) as [Hp Hexit].
    rewrite Hp, Hexit. repeat split.
    + exists (List.length (before ++ [c])).
      replace (before ++ c :: after)%list
        with ((before ++ [c]) ++ after)%list
        by (now rewrite <- app_assoc).
      now rewrite firstn_app, firstn_all, Nat.sub_diag, app_nil_r.
    + discriminate.
    + intros [w5 H5]. discriminate.
    + discriminate.
Qed.

Lemma agent_sees_initial_part_of_comments_witness :
  (exists n,
      processed (events (run Demo.checkout Demo.fetch Demo.failing_agent
                           Demo.url (Demo.options false) "/repo" Demo.clean))
      = firstn n [Demo.first_comment; Demo.second_comment])
  /\ (exitCode (run Demo.checkout Demo.fetch Demo.failing_agent
                  Demo.url (Demo.options false) "/repo" Demo.clean) = 0
      <-> exists w3,
            after_processing Demo.failing_agent
              [Demo.first_comment; Demo.second_comment]
              {| Demo.head := "pr"; Demo.dirty := []; Demo.remote := ["c0"] |}
            = Some w3)
  /\ (exitCode (run Demo.checkout Demo.fetch Demo.failing_agent
                  Demo.url (Demo.options false) "/repo" Demo.clean) = 0 ->
      processed (events (run Demo.checkout Demo.fetch Demo.failing_agent
                           Demo.url (Demo.options false) "/repo" Demo.clean))
      = [Demo.first_comment; Demo.second_comment]).
Proof.
  apply (agent_sees_initial_part_of_comments Demo.checkout Demo.fetch
           Demo.failing_agent Demo.url (Demo.options false) "/repo"
           Demo.clean
           {| Demo.head := "pr"; Demo.dirty := []; Demo.remote := ["c0"] |}
           {| Demo.head := "pr"; Demo.dirty := []; Demo.remote := ["c0"] |}
           {| owner := "owner"; repo := "repo"; prNumber := Fin 12 |}
           [Demo.first_comment; Demo.second_comment]);
    reflexivity.
Defined.

(** X12.  A run ends in one of two ways and no other.  Either its last
    line is the closing line, nothing was printed on the error stream,
    [process.exit] was not called and the code is 0; or its last two events
    are the message of an error on the error stream and [process.exit(1)],
    the closing line was not printed, nothing else went to the error stream
    and the code is 1. *)
Theorem run_ends_in_one_of_two_ways
    {World : Type}
    (checkoutPRBranch : number -> string -> World -> Result unit * World)
    (fetchPRComments :
       string -> string -> number -> World -> Result (list PRComment) * World)
    (processCommentWithClaude :
       PRComment -> World -> Result CommentProcessResult * World)
    (prUrl : string) (options : Options) (cwd : string) (w : World) :
  let r := run checkoutPRBranch fetchPRComments processCommentWithClaude
             prUrl options cwd w in
  (exitCode r = 0
   /\ (exists tr, events r = (tr ++ [done_log])%list)
   /\ existsb is_console_error (events r) = false
   /\ existsb is_exit (events r) = false)
  \/ (exitCode r = 1
      /\ exists tr e,
           events r
           = (tr ++ [ConsoleError ["Error:"; error_text e]; ProcessExit 1])%list
           /\ Forall before_the_end tr).
Proof.
  intros r. subst r.
  destruct (action_body checkoutPRBranch fetchPRComments
              processCommentWithClaude prUrl options cwd
              {| world := w; trace := [] |}) as [[[] | e] st] eqn:Hbody.
  - left. rewrite (run_Ok _ _ _ _ _ _ _ _ Hbody). cbn [events exitCode].
    destruct (action_body_respects checkoutPRBranch fetchPRComments
                processCommentWithClaude
                (fun ev => is_console_error ev = false /\ is_exit ev = false)
                (fun _ _ => True) prUrl options cwd)
      with (st := {| world := w; trace := [] |}) as (tr0 & Htr0 & HQ & _);
      auto.
    rewrite Hbody in Htr0. cbn [snd trace app] in Htr0. rewrite Htr0.
    repeat split.
    + rewrite <- Htr0.
      now apply (body_Ok_ends_with_done checkoutPRBranch fetchPRComments
                   processCommentWithClaude prUrl options cwd _ _ Hbody).
    + apply existsb_all_false. eapply Forall_impl; [|exact HQ]. now intros ? [].
    + apply existsb_all_false. eapply Forall_impl; [|exact HQ]. now intros ? [].
  - right. rewrite (run_Throw _ _ _ _ _ _ _ _ _ Hbody). cbn [events exitCode].
    split; [reflexivity|].
    destruct (body_throws_before_the_end checkoutPRBranch fetchPRComments
                processCommentWithClaude prUrl options cwd _ _ _ Hbody)
      as (tr & Htr & HQ).
    cbn [trace app] in Htr. exists (trace st), e. rewrite Htr. auto.
Qed.

(** X13.  With the three imports as the sources have them no run can end
    well: every run ends with code 1 without handing a comment to the
    agent.  For a URL that parses the message is ["Not implemented"], from
    the checkout, or from the fetch in a dry run; otherwise it is the
    message of [parsePRUrl]. *)
Theorem placeholders_fail_every_run {World : Type} (prUrl : string)
    (options : Options) (cwd : string) (w : World) :
  let r := run GitHub.checkoutPRBranch GitHub.fetchPRComments
             Claude.processCommentWithClaude prUrl options cwd w in
  exitCode r = 1
  /\ processed (events r) = []
  /\ (exists tr,
        events r
        = (tr ++ [ConsoleError
                    ["Error:";
                     match parsePRUrl prUrl with
                     | Ok _ => "Not implemented"
                     | Throw e => error_text e
                     end];
                  ProcessExit 1])%list)
  /\ (forall ref, parsePRUrl prUrl = Ok ref ->
        existsb is_call_checkout (events r) = negb (dryRun options)
        /\ existsb is_call_fetch (events r) = dryRun options).
Proof.
  intros r. subst r.
  destruct (parsePRUrl prUrl) as [ref | e] eqn:Hparse.
  - destruct (dryRun options) eqn:Hdry.
    + assert (Hco : after_checkout (World := World) GitHub.checkoutPRBranch
                      options ref cwd w = Some w)
        by (unfold after_checkout; now rewrite Hdry).
      rewrite (run_Throw _ _ _ _ _ _ _ _ _
                 (body_fetch_Throw GitHub.checkoutPRBranch
                    GitHub.fetchPRComments Claude.processCommentWithClaude
                    prUrl options cwd w w w ref (JsError "Not implemented")
                    Hparse Hco eq_refl)).
      cbn [events exitCode trace]. unfold events_before_fetch. rewrite Hdry.
      split; [reflexivity|]. split; [reflexivity|]. split.
      * eexists. cbn [app error_text].
        exact (eq_refl
                 ([_; _; _; _]
                  ++ [ConsoleError ["Error:"; "Not implemented"];
                      ProcessExit 1])%list).
      * intros ref' _. split; reflexivity.
    + rewrite (run_Throw _ _ _ _ _ _ _ _ _
                 (body_checkout_Throw GitHub.checkoutPRBranch
                    GitHub.fetchPRComments Claude.processCommentWithClaude
                    prUrl options cwd w w ref (JsError "Not implemented")
                    Hparse Hdry eq_refl)).
      cbn [events exitCode trace].
      split; [reflexivity|]. split; [reflexivity|]. split.
      * eexists. cbn [app error_text].
        exact (eq_refl
                 ([_; _; _; _]
                  ++ [ConsoleError ["Error:"; "Not implemented"];
                      ProcessExit 1])%list).
      * intros ref' _. split; reflexivity.
  - rewrite (run_Throw _ _ _ _ _ _ _ _ _
               (body_parse_Throw GitHub.checkoutPRBranch
                  GitHub.fetchPRComments Claude.processCommentWithClaude
                  prUrl options cwd w e Hparse)).
    cbn [events exitCode trace].
    split; [reflexivity|]. split; [reflexivity|]. split.
    * eexists. cbn [app].
      exact (eq_refl
               ([_; _]
                ++ [ConsoleError ["Error:"; error_text e]; ProcessExit 1])%list).
    * intros ref' Hr. discriminate Hr.
Qed.

(** X14.  A fetch that fails ends the run: the message of its error is
    printed and the code is 1, no comment is handed to the agent, and the
    world stays as the fetch left it, so that in a run that is not a dry
    run the branch checked out before stays checked out. *)
Theorem fetch_failure_ends_run
    {World : Type}
    (checkoutPRBranch : number -> string -> World -> Result unit * World)
    (fetchPRComments :
       string -> string -> number -> World -> Result (list PRComment) * World)
    (processCommentWithClaude :
       PRComment -> World -> Result CommentProcessResult * World)
    (prUrl : string) (options : Options) (cwd : string)
    (w w1 w2 : World) (ref : ParsedPRUrl) (e : exn) :
  parsePRUrl prUrl = Ok ref ->
  after_checkout checkoutPRBranch options ref cwd w = Some w1 ->
  fetchPRComments (owner ref) (repo ref) (prNumber ref) w1 = (Throw e, w2) ->
  run checkoutPRBranch fetchPRComments processCommentWithClaude
    prUrl options cwd w
  = {| final := w2;
       events :=
         events_before_fetch prUrl options cwd ref
         ++ [ CallFetch (owner ref) (repo ref) (prNumber ref);
              ConsoleError ["Error:"; error_text e];
              ProcessExit 1 ];
       exitCode := 1 |}
  /\ processed
       (events (run checkoutPRBranch fetchPRComments processCommentWithClaude
                  prUrl options cwd w)) = [].
Proof.
  intros Hparse Hco Hf.
  rewrite (run_Throw _ _ _ _ _ _ _ _ _
             (body_fetch_Throw checkoutPRBranch fetchPRComments
                processCommentWithClaude _ _ _ _ _ _ _ _ Hparse Hco Hf)).
  cbn [events world trace]. rewrite <- app_assoc. cbn [app].
  split; [reflexivity|].
  now rewrite events_before_fetch_processed.
Qed.

Lemma fetch_failure_ends_run_witness :
  run Demo.checkout Demo.failing_fetch Demo.agent Demo.url
    (Demo.options false) "/repo" Demo.clean
  = {| final := {| Demo.head := "pr"; Demo.dirty := [];
                   Demo.remote := ["c0"] |};
       events :=
         events_before_fetch Demo.url (Demo.options false) "/repo"
           {| owner := "owner"; repo := "repo"; prNumber := Fin 12 |}
         ++ [ CallFetch "owner" "repo" (Fin 12);
              ConsoleError ["Error:"; "gh: not logged in"];
              ProcessExit 1 ];
       exitCode := 1 |}
  /\ processed
       (events (run Demo.checkout Demo.failing_fetch Demo.agent Demo.url
                  (Demo.options false) "/repo" Demo.clean)) = [].
Proof.
  apply (fetch_failure_ends_run Demo.checkout Demo.failing_fetch Demo.agent
           Demo.url (Demo.options false) "/repo" Demo.clean
           {| Demo.head := "pr"; Demo.dirty := []; Demo.remote := ["c0"] |}
           {| Demo.head := "pr"; Demo.dirty := []; Demo.remote := ["c0"] |}
           {| owner := "owner"; repo := "repo"; prNumber := Fin 12 |}
           (JsValue "gh: not logged in"));
    reflexivity.
Defined.
